(** * taschino, package [release]: latest-release lookup and version comparison

    A shallow embedding of [pkg/release/release.go] together with the parts
    of the libraries it calls that decide its results:

    - [golang.org/x/mod/semver] (imported at release.go:10): [IsValid] and
      [Compare] with their unexported helpers, transcribed function by
      function in module [semver];
    - [encoding/json]: what [Decoder.Decode] stores into the one-field
      struct [Response], on the parsed JSON value, in module [json];
    - [net/http]: the two calls [NewRequestWithContext] and [Client.Do],
      whose outcomes are supplied by an environment record.

    Go strings are byte strings and are modelled as [string]; [int] results
    are in [Z]; indices and lengths are in [nat]. *)

From Stdlib Require Import String Ascii List ZArith NArith Bool Arith Lia.
Import ListNotations.

Local Open Scope string_scope.

(** ** Go string primitives *)

(** [v[i:]] *)
Fixpoint slice_from (v : string) (i : nat) {struct i} : string :=
  match i, v with
  | O, _ => v
  | S i', String _ v' => slice_from v' i'
  | S _, EmptyString => EmptyString
  end.

(** [v[:j]] *)
Fixpoint slice_to (v : string) (j : nat) {struct j} : string :=
  match j, v with
  | O, _ => EmptyString
  | S j', String c v' => String c (slice_to v' j')
  | S _, EmptyString => EmptyString
  end.

(** [v[i:j]] *)
Definition slice (v : string) (i j : nat) : string :=
  slice_to (slice_from v i) (j - i).

(** Byte comparison [a <= b]. *)
Definition byte_le (a b : ascii) : bool := (nat_of_ascii a <=? nat_of_ascii b)%nat.

(** The loop [for i < len(v) && p(v[i]) { i++ }], returning the final [i].
    It runs at most [len(v)] times, which is the fuel its callers give. *)
Fixpoint index_while (p : ascii -> bool) (fuel : nat) (v : string) (i : nat) : nat :=
  match fuel with
  | O => i
  | S fuel' =>
      match get i v with
      | Some c => if p c then index_while p fuel' v (S i) else i
      | None => i
      end
  end.

(** ** golang.org/x/mod/semver *)

Module semver.

Record parsed := mkParsed {
  major : string;
  minor : string;
  patch : string;
  short : string;
  prerelease : string;
  build : string
}.

Definition isDigit (c : ascii) : bool := byte_le "0" c && byte_le c "9".

Definition isIdentChar (c : ascii) : bool :=
  byte_le "A" c && byte_le c "Z" || byte_le "a" c && byte_le c "z"
  || byte_le "0" c && byte_le c "9" || (c =? "-")%char.

Definition isBadNum (v : string) : bool :=
  let i := index_while isDigit (String.length v) v 0 in
  (i =? String.length v)%nat && (1 <? i)%nat
  && match v with String c _ => (c =? "0")%char | EmptyString => false end.

Definition isNum (v : string) : bool :=
  let i := index_while isDigit (String.length v) v 0 in
  (i =? String.length v)%nat.

Definition parseInt (v : string) : string * string * bool :=
  match v with
  | EmptyString => ("", "", false)
  | String c0 _ =>
      if negb (byte_le "0" c0) || negb (byte_le c0 "9") then ("", "", false)
      else
        let i := index_while isDigit (String.length v) v 1 in
        if (c0 =? "0")%char && negb (i =? 1)%nat then ("", "", false)
        else (slice_to v i, slice_from v i, true)
  end.

(** The loop of [parsePrerelease]; [None] is the early [return] from inside
    the loop, [Some (i, start)] the loop's normal exit. *)
Fixpoint parsePrerelease_loop (fuel : nat) (v : string) (i start : nat)
  : option (nat * nat) :=
  match fuel with
  | O => Some (i, start)
  | S fuel' =>
      match get i v with
      | None => Some (i, start)
      | Some c =>
          if (c =? "+")%char then Some (i, start)
          else if negb (isIdentChar c) && negb (c =? ".")%char then None
          else if (c =? ".")%char then
            if (start =? i)%nat || isBadNum (slice v start i) then None
            else parsePrerelease_loop fuel' v (S i) (S i)
          else parsePrerelease_loop fuel' v (S i) start
      end
  end.

Definition parsePrerelease (v : string) : string * string * bool :=
  match v with
  | EmptyString => ("", "", false)
  | String c0 _ =>
      if negb (c0 =? "-")%char then ("", "", false)
      else
        match parsePrerelease_loop (String.length v) v 1 1 with
        | None => ("", "", false)
        | Some (i, start) =>
            if (start =? i)%nat || isBadNum (slice v start i) then ("", "", false)
            else (slice_to v i, slice_from v i, true)
        end
  end.

(** The loop of [parseBuild], with the same conventions. *)
Fixpoint parseBuild_loop (fuel : nat) (v : string) (i start : nat)
  : option (nat * nat) :=
  match fuel with
  | O => Some (i, start)
  | S fuel' =>
      match get i v with
      | None => Some (i, start)
      | Some c =>
          if negb (isIdentChar c) && negb (c =? ".")%char then None
          else if (c =? ".")%char then
            if (start =? i)%nat then None
            else parseBuild_loop fuel' v (S i) (S i)
          else parseBuild_loop fuel' v (S i) start
      end
  end.

Definition parseBuild (v : string) : string * string * bool :=
  match v with
  | EmptyString => ("", "", false)
  | String c0 _ =>
      if negb (c0 =? "+")%char then ("", "", false)
      else
        match parseBuild_loop (String.length v) v 1 1 with
        | None => ("", "", false)
        | Some (i, start) =>
            if (start =? i)%nat then ("", "", false)
            else (slice_to v i, slice_from v i, true)
        end
  end.

(** [len(v) > 0 && v[0] == c] *)
Definition starts_with (c : ascii) (v : string) : bool :=
  match v with
  | String c0 _ => (c0 =? c)%char
  | EmptyString => false
  end.

(** [parse] has named results [(p parsed, ok bool)]: a bare [return] gives
    back the fields filled so far. *)
Definition parse (v : string) : parsed * bool :=
  match v with
  | EmptyString => (mkParsed "" "" "" "" "" "", false)
  | String c0 _ =>
      if negb (c0 =? "v")%char then (mkParsed "" "" "" "" "" "", false)
      else
        let '(p_major, v, ok) := parseInt (slice_from v 1) in
        if negb ok then (mkParsed p_major "" "" "" "" "", ok)
        else if (v =? "")%string then (mkParsed p_major "0" "0" ".0.0" "" "", ok)
        else if negb (starts_with "." v) then (mkParsed p_major "" "" "" "" "", false)
        else
          let '(p_minor, v, ok) := parseInt (slice_from v 1) in
          if negb ok then (mkParsed p_major p_minor "" "" "" "", ok)
          else if (v =? "")%string then (mkParsed p_major p_minor "0" ".0" "" "", ok)
          else if negb (starts_with "." v) then (mkParsed p_major p_minor "" "" "" "", false)
          else
            let '(p_patch, v, ok) := parseInt (slice_from v 1) in
            if negb ok then (mkParsed p_major p_minor p_patch "" "" "", ok)
            else
              let '(p_prerelease, v, ok) :=
                if starts_with "-" v then parsePrerelease v else ("", v, ok) in
              if negb ok then (mkParsed p_major p_minor p_patch "" p_prerelease "", ok)
              else
                let '(p_build, v, ok) :=
                  if starts_with "+" v then parseBuild v else ("", v, ok) in
                if negb ok then (mkParsed p_major p_minor p_patch "" p_prerelease p_build, ok)
                else if negb (v =? "")%string
                then (mkParsed p_major p_minor p_patch "" p_prerelease p_build, false)
                else (mkParsed p_major p_minor p_patch "" p_prerelease p_build, true)
  end.

Definition IsValid (v : string) : bool := snd (parse v).

Definition compareInt (x y : string) : Z :=
  if (x =? y)%string then 0%Z
  else if (String.length x <? String.length y)%nat then (-1)%Z
  else if (String.length y <? String.length x)%nat then 1%Z
  else if String.ltb x y then (-1)%Z
  else 1%Z.

Definition nextIdent (x : string) : string * string :=
  let i := index_while (fun c => negb (c =? ".")%char) (String.length x) x 0 in
  (slice_to x i, slice_from x i).

(** The loop [for x != "" && y != ""] of [comparePrerelease] followed by the
    statement after it. Every round drops at least one byte of [x], so
    [S (len(x))] rounds of fuel reach the exit test. *)
Fixpoint comparePrerelease_loop (fuel : nat) (x y : string) : Z :=
  match fuel with
  | O => if (x =? "")%string then (-1)%Z else 1%Z
  | S fuel' =>
      if negb (x =? "")%string && negb (y =? "")%string then
        let x := slice_from x 1 in
        let y := slice_from y 1 in
        let '(dx, x) := nextIdent x in
        let '(dy, y) := nextIdent y in
        if negb (dx =? dy)%string then
          let ix := isNum dx in
          let iy := isNum dy in
          if negb (Bool.eqb ix iy) then
            if ix then (-1)%Z else 1%Z
          else if ix && (String.length dx <? String.length dy)%nat then (-1)%Z
          else if ix && (String.length dy <? String.length dx)%nat then 1%Z
          else if String.ltb dx dy then (-1)%Z
          else 1%Z
        else comparePrerelease_loop fuel' x y
      else if (x =? "")%string then (-1)%Z else 1%Z
  end.

Definition comparePrerelease (x y : string) : Z :=
  if (x =? y)%string then 0%Z
  else if (x =? "")%string then 1%Z
  else if (y =? "")%string then (-1)%Z
  else comparePrerelease_loop (S (String.length x)) x y.

Definition Compare (v w : string) : Z :=
  let '(pv, ok1) := parse v in
  let '(pw, ok2) := parse w in
  if negb ok1 && negb ok2 then 0%Z
  else if negb ok1 then (-1)%Z
  else if negb ok2 then 1%Z
  else
    let c := compareInt (major pv) (major pw) in
    if negb (c =? 0)%Z then c
    else
      let c := compareInt (minor pv) (minor pw) in
      if negb (c =? 0)%Z then c
      else
        let c := compareInt (patch pv) (patch pw) in
        if negb (c =? 0)%Z then c
        else comparePrerelease (prerelease pv) (prerelease pw).

End semver.

(** ** Errors

    [errors.New] and [fmt.Errorf] without [%w] build a plain message;
    [fmt.Errorf] with [%w] builds a [*fmt.wrapError] whose message is the
    formatted text and which keeps the wrapped error. *)

Inductive error :=
| errorString (s : string)
| wrapError (msg : string) (err : error).

Definition Error (e : error) : string :=
  match e with
  | errorString s => s
  | wrapError msg _ => msg
  end.

(** [fmt.Errorf(prefix + "%w", err)] *)
Definition Errorf_w (prefix : string) (err : error) : error :=
  wrapError (prefix ++ Error err) err.

(** ** encoding/json: decoding into [struct { TagName string `json:"tag_name"` }]

    The body handed to [json.NewDecoder] is represented by what the
    decoder's scanner makes of it: a syntax or read error, or the first JSON
    value of the stream. Object members keep their textual order and may
    repeat a key. *)

Module json.

#[warnings="-register-all"]
Inductive value :=
| JNull
| JBool (b : bool)
| JNumber (literal : string)
| JString (s : string)
| JArray (elems : list value)
| JObject (members : list (string * value)).

Inductive body :=
| Malformed (err : error)
| Value (j : value).

(** The error of [*json.UnmarshalTypeError], by the JSON kind that did not
    fit and the Go destination. *)
Definition UnmarshalTypeError (Value Dest : string) : error :=
  errorString ("json: cannot unmarshal " ++ Value ++ " into Go " ++ Dest).

(** [d.saveError]: only the first error is kept. *)
Definition saveError (saved : option error) (err : error) : option error :=
  match saved with
  | None => Some err
  | Some _ => saved
  end.

(** Key folding for the case-insensitive field match: ASCII letters are
    upper-cased. (No non-ASCII rune folds to a letter of [tag_name].) *)
Definition foldByte (c : ascii) : ascii :=
  if byte_le "a" c && byte_le c "z" then ascii_of_nat (nat_of_ascii c - 32) else c.

Fixpoint foldName (s : string) : string :=
  match s with
  | EmptyString => EmptyString
  | String c s' => String (foldByte c) (foldName s')
  end.

(** An object key selects the field when it is the tag [tag_name] exactly
    or, failing that, equal to it after folding. *)
Definition matchesField (key : string) : bool :=
  (key =? "tag_name")%string || (foldName key =? foldName "tag_name")%string.

(** Storing a JSON value into the [string] field: a string is stored, [null]
    leaves the field alone, anything else is a type error and the field is
    left alone. *)
Definition storeField (j : value) (st : string * option error) : string * option error :=
  let dest := "struct field Response.tag_name of type string" in
  match j with
  | JString s => (s, snd st)
  | JNull => st
  | JBool _ => (fst st, saveError (snd st) (UnmarshalTypeError "bool" dest))
  | JNumber _ => (fst st, saveError (snd st) (UnmarshalTypeError "number" dest))
  | JArray _ => (fst st, saveError (snd st) (UnmarshalTypeError "array" dest))
  | JObject _ => (fst st, saveError (snd st) (UnmarshalTypeError "object" dest))
  end.

(** Members are visited in order; members of other keys are skipped. *)
Fixpoint object (members : list (string * value)) (st : string * option error)
  : string * option error :=
  match members with
  | [] => st
  | (key, j) :: rest =>
      object rest (if matchesField key then storeField j st else st)
  end.

(** [Unmarshal] of a value into the struct whose field currently holds
    [tagName]: the new field and the saved error. *)
Definition unmarshal (j : value) (tagName : string) : string * option error :=
  let dest := "value of type release.Response" in
  match j with
  | JObject members => object members (tagName, None)
  | JNull => (tagName, None)
  | JBool _ => (tagName, Some (UnmarshalTypeError "bool" dest))
  | JNumber _ => (tagName, Some (UnmarshalTypeError "number" dest))
  | JString _ => (tagName, Some (UnmarshalTypeError "string" dest))
  | JArray _ => (tagName, Some (UnmarshalTypeError "array" dest))
  end.

(** [decoder.Decode(&response)] *)
Definition Decode (b : body) (tagName : string) : string * option error :=
  match b with
  | Malformed err => (tagName, Some err)
  | Value j => unmarshal j tagName
  end.

End json.

(** ** net/http, as far as [GitHubLatest] uses it *)

Module http.

Definition MethodGet : string := "GET".
Definition StatusNotFound : Z := 404.

(** [time.Second], in nanoseconds. *)
Definition Second : Z := 1000000000.

Record Request := mkRequest {
  Timeout : Z;          (* of the request's context *)
  Method : string;
  URL : string
}.

Record Response := mkResponse {
  StatusCode : Z;
  Body : json.body
}.

(** The outside world: why [url.Parse] rejects a URL, if it does, and what
    the transport answers to a request. *)
Record Env := mkEnv {
  url_Parse : string -> option error;
  RoundTrip : Request -> Response + error
}.

(** With a non-nil context and the method [GET], the request is refused
    only when its URL does not parse. *)
Definition NewRequestWithContext (env : Env) (timeout : Z) (method url : string)
  : Request + error :=
  match url_Parse env url with
  | Some err => inr err
  | None => inl (mkRequest timeout method url)
  end.

Definition Do (env : Env) (req : Request) : Response + error := RoundTrip env req.

End http.

(** ** pkg/release/release.go *)

Module release.

(** What a call does to the outside, in order. Deferred calls run at the
    return. *)
Inductive event :=
| EvDo (req : http.Request)
| EvDecode
| EvBodyClose
| EvCancel.

Definition api_url (owner repo : string) : string :=
  "https://api.github.com/repos/" ++ owner ++ "/" ++ repo ++ "/releases/latest".

Definition GitHubLatest (env : http.Env) (owner repo : string)
  : string * option error * list event :=
  let api_url := api_url owner repo in
  (* defer cancel() *)
  match http.NewRequestWithContext env (5 * http.Second) http.MethodGet api_url with
  | inr err => ("", Some (Errorf_w "create http request: " err), [EvCancel])
  | inl req =>
      match http.Do env req with
      | inr err => ("", Some (Errorf_w "http client Do: " err), [EvDo req; EvCancel])
      | inl resp =>
          (* defer resp.Body.Close() *)
          if (http.StatusCode resp =? http.StatusNotFound)%Z then
            ("", Some (errorString ("no release found at " ++ api_url)),
             [EvDo req; EvBodyClose; EvCancel])
          else
            let '(TagName, err) := json.Decode (http.Body resp) "" in
            match err with
            | Some err =>
                ("", Some (Errorf_w "parsing JSON response: " err),
                 [EvDo req; EvDecode; EvBodyClose; EvCancel])
            | None =>
                if (TagName =? "")%string then
                  ("", Some (errorString "parsing JSON response: missing 'field tag_name'"),
                   [EvDo req; EvDecode; EvBodyClose; EvCancel])
                else (TagName, None, [EvDo req; EvDecode; EvBodyClose; EvCancel])
            end
      end
  end.

Definition Compare (curV latestV : string) : Z * option error :=
  if negb (semver.IsValid curV) then
    (0%Z, Some (errorString ("installed version is not a valid semver: " ++ curV)))
  else if negb (semver.IsValid latestV) then
    (0%Z, Some (errorString ("latest version is not a valid semver: " ++ latestV)))
  else (semver.Compare curV latestV, None).

End release.

(** ** Semantic versioning, as the specification words it

    The written form of a version and the precedence of versions, stated on
    their own: these definitions do not use the parser or the comparison
    of module [semver]; only the two character classes are shared. *)

Module semver_spec.

Fixpoint all (p : ascii -> bool) (s : string) : bool :=
  match s with
  | EmptyString => true
  | String c s' => p c && all p s'
  end.

(** A decimal number without leading zeros. *)
Definition numeric (s : string) : bool :=
  match s with
  | EmptyString => false
  | String c s' => all semver.isDigit s && (negb (c =? "0")%char || (s' =? "")%string)
  end.

(** A build identifier: non-empty, of [0-9A-Za-z-]. *)
Definition build_ident (s : string) : bool :=
  negb (s =? "")%string && all semver.isIdentChar s.

(** A prerelease identifier: a build identifier which, when it is all
    digits, has no leading zeros. *)
Definition pre_ident (s : string) : bool :=
  build_ident s && (negb (all semver.isDigit s) || numeric s).

(** [mark id1 . id2 . ... . idn], empty for no identifier. *)
Fixpoint suffix (mark : ascii) (ids : list string) : string :=
  match ids with
  | [] => ""
  | id :: rest => String mark (id ++ suffix "." rest)
  end.

Definition digit_value (c : ascii) : N := N_of_ascii c - 48.

(** The number a string of digits denotes. *)
Fixpoint value (s : string) : N :=
  match s with
  | EmptyString => 0
  | String c s' => digit_value c * 10 ^ N.of_nat (String.length s') + value s'
  end.

Inductive ident :=
| Numeric (n : N)
| Alphanumeric (s : string).

Definition ident_of (s : string) : ident :=
  if all semver.isDigit s then Numeric (value s) else Alphanumeric s.

Record version := mkVersion {
  v_major : N;
  v_minor : N;
  v_patch : N;
  v_prerelease : list ident;
  v_build : list string
}.

(** The strings that are versions, with the version each denotes:
    [vMAJOR], [vMAJOR.MINOR] and
    [vMAJOR.MINOR.PATCH[-PRERELEASE][+BUILD]]. *)
Inductive written : string -> version -> Prop :=
| written_major maj :
    numeric maj = true ->
    written ("v" ++ maj) (mkVersion (value maj) 0 0 [] [])
| written_minor maj min :
    numeric maj = true -> numeric min = true ->
    written ("v" ++ maj ++ "." ++ min) (mkVersion (value maj) (value min) 0 [] [])
| written_patch maj min pat pre bld :
    numeric maj = true -> numeric min = true -> numeric pat = true ->
    Forall (fun id => pre_ident id = true) pre ->
    Forall (fun id => build_ident id = true) bld ->
    written ("v" ++ maj ++ "." ++ min ++ "." ++ pat ++ suffix "-" pre ++ suffix "+" bld)
            (mkVersion (value maj) (value min) (value pat) (map ident_of pre) bld).

(** Precedence of prerelease identifiers: numeric ones by value, the others
    in ASCII order, a numeric one below any other. *)
Definition ident_compare (a b : ident) : comparison :=
  match a, b with
  | Numeric x, Numeric y => N.compare x y
  | Numeric _, Alphanumeric _ => Lt
  | Alphanumeric _, Numeric _ => Gt
  | Alphanumeric x, Alphanumeric y => String.compare x y
  end.

(** Identifier by identifier; a proper prefix comes first. *)
Fixpoint idents_compare (xs ys : list ident) : comparison :=
  match xs, ys with
  | [], [] => Eq
  | [], _ :: _ => Lt
  | _ :: _, [] => Gt
  | x :: xs', y :: ys' =>
      match ident_compare x y with
      | Eq => idents_compare xs' ys'
      | c => c
      end
  end.

(** A version with a prerelease comes before the same version without. *)
Definition prerelease_compare (xs ys : list ident) : comparison :=
  match xs, ys with
  | [], [] => Eq
  | [], _ :: _ => Gt
  | _ :: _, [] => Lt
  | _, _ => idents_compare xs ys
  end.

(** Major, then minor, then patch, as numbers; then the prerelease. The
    build metadata is not looked at. *)
Definition precedence (a b : version) : comparison :=
  match N.compare (v_major a) (v_major b) with
  | Eq =>
      match N.compare (v_minor a) (v_minor b) with
      | Eq =>
          match N.compare (v_patch a) (v_patch b) with
          | Eq => prerelease_compare (v_prerelease a) (v_prerelease b)
          | c => c
          end
      | c => c
      end
  | c => c
  end.

(** Two versions that differ at most in their build metadata. *)
Definition same_but_build (a b : version) : Prop :=
  v_major a = v_major b /\ v_minor a = v_minor b /\ v_patch a = v_patch b
  /\ v_prerelease a = v_prerelease b.

(** The integer a comparison is reported as. *)
Definition sign (c : comparison) : Z :=
  match c with
  | Lt => (-1)%Z
  | Eq => 0%Z
  | Gt => 1%Z
  end.

End semver_spec.

(** ** Auxiliary notions for the proofs about [semver] *)

(** How many leading bytes of [s] satisfy [p]. *)
Fixpoint span_len (p : ascii -> bool) (s : string) : nat :=
  match s with
  | EmptyString => 0
  | String c s' => if p c then S (span_len p s') else 0
  end.

(** [s] is empty or its first byte satisfies [p]. *)
Definition halts (p : ascii -> bool) (s : string) : Prop :=
  match s with
  | EmptyString => True
  | String c _ => p c = true
  end.

(** The common shape of the loops of [parsePrerelease] and [parseBuild]:
    [stop] ends the scan, [bad] rejects an identifier. *)
Fixpoint ident_loop (stop : ascii -> bool) (bad : string -> bool)
    (fuel : nat) (v : string) (i start : nat) : option (nat * nat) :=
  match fuel with
  | O => Some (i, start)
  | S fuel' =>
      match get i v with
      | None => Some (i, start)
      | Some c =>
          if stop c then Some (i, start)
          else if negb (semver.isIdentChar c) && negb (c =? ".")%char then None
          else if (c =? ".")%char then
            if (start =? i)%nat || bad (slice v start i) then None
            else ident_loop stop bad fuel' v (S i) (S i)
          else ident_loop stop bad fuel' v (S i) start
      end
  end.

(** The identifiers such a loop accepts. *)
Definition ident_ok (bad : string -> bool) (id : string) : bool :=
  negb (id =? "")%string && semver_spec.all semver.isIdentChar id && negb (bad id).

(** A written version together with the fields [parse] fills for it. *)
Inductive parsed_as : string -> semver.parsed -> semver_spec.version -> Prop :=
| parsed_major maj :
    semver_spec.numeric maj = true ->
    parsed_as ("v" ++ maj)
      (semver.mkParsed maj "0" "0" ".0.0" "" "")
      (semver_spec.mkVersion (semver_spec.value maj) 0 0 [] [])
| parsed_minor maj min :
    semver_spec.numeric maj = true -> semver_spec.numeric min = true ->
    parsed_as ("v" ++ maj ++ "." ++ min)
      (semver.mkParsed maj min "0" ".0" "" "")
      (semver_spec.mkVersion (semver_spec.value maj) (semver_spec.value min) 0 [] [])
| parsed_patch maj min pat pre bld :
    semver_spec.numeric maj = true -> semver_spec.numeric min = true ->
    semver_spec.numeric pat = true ->
    Forall (fun id => semver_spec.pre_ident id = true) pre ->
    Forall (fun id => semver_spec.build_ident id = true) bld ->
    parsed_as
      ("v" ++ maj ++ "." ++ min ++ "." ++ pat
           ++ semver_spec.suffix "-" pre ++ semver_spec.suffix "+" bld)
      (semver.mkParsed maj min pat ""
         (semver_spec.suffix "-" pre) (semver_spec.suffix "+" bld))
      (semver_spec.mkVersion (semver_spec.value maj) (semver_spec.value min)
         (semver_spec.value pat) (map semver_spec.ident_of pre) bld).

(** The test of the loop of [nextIdent]. *)
Definition not_dot (c : ascii) : bool := negb (c =? ".")%char.

(** What [comparePrerelease] answers for two identifiers that differ. *)
Definition identCompare (dx dy : string) : Z :=
  let ix := semver.isNum dx in
  let iy := semver.isNum dy in
  if negb (Bool.eqb ix iy) then
    if ix then (-1)%Z else 1%Z
  else if ix && (String.length dx <? String.length dy)%nat then (-1)%Z
  else if ix && (String.length dy <? String.length dx)%nat then 1%Z
  else if String.ltb dx dy then (-1)%Z
  else 1%Z.

(** The loop of [comparePrerelease], on the identifiers left on each side. *)
Fixpoint identsCompare (xs ys : list string) : Z :=
  match xs, ys with
  | [], _ => (-1)%Z
  | _ :: _, [] => 1%Z
  | x :: xs', y :: ys' =>
      if negb (x =? y)%string then identCompare x y else identsCompare xs' ys'
  end.

(** ** Reading the results

    The code reports failures as messages; the kinds of failure the callers
    are told about are told apart by the message the code builds. *)

Inductive failure :=
| RequestConstructionError
| NetworkError
| NotFoundError
| ResponseParseError
| InvalidInstalledVersion
| InvalidLatestVersion.

Fixpoint HasPrefix (s p : string) {struct p} : bool :=
  match p with
  | EmptyString => true
  | String a p' =>
      match s with
      | EmptyString => false
      | String b s' => (a =? b)%char && HasPrefix s' p'
      end
  end.

Definition classify (e : error) : option failure :=
  let msg := Error e in
  if HasPrefix msg "create http request: " then Some RequestConstructionError
  else if HasPrefix msg "http client Do: " then Some NetworkError
  else if HasPrefix msg "no release found at " then Some NotFoundError
  else if HasPrefix msg "parsing JSON response: " then Some ResponseParseError
  else if HasPrefix msg "installed version is not a valid semver: " then Some InvalidInstalledVersion
  else if HasPrefix msg "latest version is not a valid semver: " then Some InvalidLatestVersion
  else None.

(** An environment that accepts every URL and answers every request with
    the response [resp]. *)
Definition answering (resp : http.Response) : http.Env :=
  http.mkEnv (fun _ => None) (fun _ => inl resp).

(** The body [{"tag_name": t}]. *)
Definition tag_body (t : string) : json.body :=
  json.Value (json.JObject [("tag_name", json.JString t)]).

(** No member of the object has a key that selects the field. *)
Definition absent (members : list (string * json.value)) : Prop :=
  forall k v, In (k, v) members -> json.matchesField k = false.

(** The object has a member for the field holding the string [t]; the
    members for the field before it hold strings or [null], the ones after
    it hold [null]. *)
Definition holds_tag (members : list (string * json.value)) (t : string) : Prop :=
  exists before key after,
    members = (before ++ (key, json.JString t) :: after)%list
    /\ json.matchesField key = true
    /\ (forall k v, In (k, v) before -> json.matchesField k = true ->
          v = json.JNull \/ exists s, v = json.JString s)
    /\ (forall k v, In (k, v) after -> json.matchesField k = true -> v = json.JNull).

(** The JSON value has no field [tag_name], or its field is the empty
    string: it is not an object, or an object without a member for the
    field, or an object whose last member for the field holds [""]. *)
Definition tag_absent_or_empty (j : json.value) : Prop :=
  match j with
  | json.JObject members =>
      absent members
      \/ exists before key after,
           members = (before ++ (key, json.JString "") :: after)%list
           /\ json.matchesField key = true
           /\ absent after
  | _ => True
  end.


(** The request [GitHubLatest] builds for [owner] and [repo]. *)
Definition latest_request (owner repo : string) : http.Request :=
  http.mkRequest 5000000000 "GET" (release.api_url owner repo).

(** The members of an object that [Decode] stores into the struct. *)
Definition field_members (members : list (string * json.value))
  : list (string * json.value) :=
  filter (fun m => json.matchesField (fst m)) members.

(** Two comparisons in sequence: the second decides when the first is [Eq]. *)
Definition lex (c d : comparison) : comparison :=
  match c with
  | Eq => d
  | Lt => Lt
  | Gt => Gt
  end.

(** The bytes a valid version is made of: [0-9A-Za-z-], the dot and the
    plus. *)
Definition version_byte (c : ascii) : bool :=
  semver.isIdentChar c || (c =? ".")%char || (c =? "+")%char.

(** * Properties of [GitHubLatest] *)

Section Decoding.

Lemma classify_parse (msg : string) (inner : option error) :
  classify (match inner with
            | Some e => wrapError ("parsing JSON response: " ++ msg) e
            | None => errorString ("parsing JSON response: " ++ msg)
            end) = Some ResponseParseError.
Proof.
  unfold classify.
  assert (E : Error (match inner with
            | Some e => wrapError ("parsing JSON response: " ++ msg) e
            | None => errorString ("parsing JSON response: " ++ msg)
            end) = "parsing JSON response: " ++ msg) by now destruct inner.
  rewrite E. reflexivity.
Qed.

Lemma object_app (a b : list (string * json.value)) st :
  json.object (a ++ b)%list st = json.object b (json.object a st).
Proof.
  revert st. induction a as [|[k j] a IH]; intros st; simpl; [reflexivity|].
  apply IH.
Qed.

Lemma object_absent members st : absent members -> json.object members st = st.
Proof.
  revert st. induction members as [|[k j] ms IH]; intros st A; simpl; [reflexivity|].
  rewrite (A k j) by (left; reflexivity).
  apply IH. intros k' v' I. apply (A k' v'). now right.
Qed.

Lemma object_nulls members st :
  (forall k v, In (k, v) members -> json.matchesField k = true -> v = json.JNull) ->
  json.object members st = st.
Proof.
  revert st. induction members as [|[k j] ms IH]; intros st A; simpl; [reflexivity|].
  rewrite IH by (intros k' v' I; apply (A k' v'); now right).
  destruct (json.matchesField k) eqn:M; [|reflexivity].
  rewrite (A k j) by (now left || assumption). reflexivity.
Qed.

Lemma object_strings members st :
  (forall k v, In (k, v) members -> json.matchesField k = true ->
     v = json.JNull \/ exists s, v = json.JString s) ->
  snd (json.object members st) = snd st.
Proof.
  revert st. induction members as [|[k j] ms IH]; intros st A; simpl; [reflexivity|].
  rewrite IH by (intros k' v' I; apply (A k' v'); now right).
  destruct (json.matchesField k) eqn:M; [|reflexivity].
  destruct (A k j (or_introl eq_refl) M) as [->|[s ->]]; reflexivity.
Qed.

Lemma object_holds_tag members t :
  holds_tag members t -> json.object members ("", None) = (t, None).
Proof.
  intros (before & key & after & -> & M & B & A).
  rewrite object_app. simpl. rewrite M.
  rewrite object_nulls by exact A.
  unfold json.storeField.
  rewrite (object_strings before _ B). reflexivity.
Qed.

Lemma object_empty_tag members :
  tag_absent_or_empty (json.JObject members) ->
  fst (json.object members ("", None)) = "".
Proof.
  intros [A | (before & key & after & -> & M & A)].
  - now rewrite object_absent.
  - rewrite object_app. simpl. rewrite M.
    now rewrite object_absent.
Qed.

End Decoding.

Section Transport.

Import release.

Variables (env : http.Env) (owner repo : string).

(** A URL that does not parse: nothing is sent. *)
Lemma GitHubLatest_request_error (err : error) :
  http.url_Parse env (api_url owner repo) = Some err ->
  GitHubLatest env owner repo
  = ("", Some (Errorf_w "create http request: " err), [EvCancel]).
Proof.
  intros P. unfold GitHubLatest, http.NewRequestWithContext. now rewrite P.
Qed.

(** A transport failure, such as the expiry of the five seconds of the
    request's context, comes back wrapped. *)
Lemma GitHubLatest_transport_error (err : error) :
  http.url_Parse env (api_url owner repo) = None ->
  http.RoundTrip env (http.mkRequest 5000000000 "GET" (api_url owner repo)) = inr err ->
  GitHubLatest env owner repo
  = ("", Some (Errorf_w "http client Do: " err),
     [EvDo (http.mkRequest 5000000000 "GET" (api_url owner repo)); EvCancel]).
Proof.
  intros P R. unfold GitHubLatest, http.NewRequestWithContext, http.Do.
  rewrite P. change (5 * http.Second)%Z with 5000000000%Z.
  unfold http.MethodGet. now rewrite R.
Qed.

End Transport.

Section Fetcher.

Import release.

(** A call that got as far as a response: the request was built and the
    transport answered it with [resp]. *)
Context (env : http.Env) (owner repo : string).
Context (req : http.Request) (resp : http.Response).
Hypothesis built :
  http.NewRequestWithContext env (5 * http.Second) http.MethodGet (api_url owner repo)
  = inl req.
Hypothesis answered : http.Do env req = inl resp.

(** The request is the [GET] of the latest-release URL under a context that
    expires after five seconds. *)
Lemma request_deadline :
  req = http.mkRequest 5000000000 "GET" (api_url owner repo).
Proof using built.
  unfold http.NewRequestWithContext in built.
  destruct (http.url_Parse env (api_url owner repo)); [discriminate|].
  injection built as E. symmetry. exact E.
Qed.

(** What the code does once the status is known not to be 404. *)
Lemma GitHubLatest_decodes :
  http.StatusCode resp <> 404%Z ->
  GitHubLatest env owner repo =
  (match json.Decode (http.Body resp) "" with
   | (_, Some err) => ("", Some (Errorf_w "parsing JSON response: " err))
   | (TagName, None) =>
       if (TagName =? "")%string
       then ("", Some (errorString "parsing JSON response: missing 'field tag_name'"))
       else (TagName, None)
   end, [EvDo req; EvDecode; EvBodyClose; EvCancel]).
Proof using built answered.
  intros St. unfold GitHubLatest. rewrite built, answered.
  unfold http.StatusNotFound.
  destruct (Z.eqb_spec (http.StatusCode resp) 404) as [E|_]; [contradiction|].
  destruct (json.Decode (http.Body resp) "") as [t [e|]]; [reflexivity|].
  now destruct (t =? "")%string.
Qed.

(** C7. A response with status 404 makes [GitHubLatest] return the empty
    tag and the "no release found" error naming the URL, without the body
    being decoded: the only effects are the request, closing the body and
    cancelling the context. *)
Theorem GitHubLatest_not_found :
  http.StatusCode resp = 404%Z ->
  GitHubLatest env owner repo
  = ("", Some (errorString ("no release found at " ++ api_url owner repo)),
     [EvDo req; EvBodyClose; EvCancel])
  /\ classify (errorString ("no release found at " ++ api_url owner repo))
     = Some NotFoundError
  /\ ~ In EvDecode [EvDo req; EvBodyClose; EvCancel].
Proof using built answered.
  intros St. repeat split.
  - unfold GitHubLatest. rewrite built, answered, St. reflexivity.
  - simpl. intros [H|[H|[H|[]]]]; discriminate.
Qed.

(** C9, as amended. With any status other than 404 the body is decoded,
    whatever the status: the call succeeds with the decoded tag when
    decoding stores a non-empty tag without error, and otherwise fails with
    a parse error and the empty tag; in particular it succeeds on an object
    that holds a non-empty tag. *)
Theorem GitHubLatest_other_status :
  http.StatusCode resp <> 404%Z ->
  exists tag err,
    GitHubLatest env owner repo = (tag, err, [EvDo req; EvDecode; EvBodyClose; EvCancel])
    /\ ((exists t, json.Decode (http.Body resp) "" = (t, None)
                   /\ t <> "" /\ tag = t /\ err = None)
        \/ (exists e, (snd (json.Decode (http.Body resp) "") <> None
                       \/ fst (json.Decode (http.Body resp) "") = "")
                      /\ tag = "" /\ err = Some e
                      /\ classify e = Some ResponseParseError))
    /\ (forall members t,
          http.Body resp = json.Value (json.JObject members) ->
          holds_tag members t -> t <> "" -> tag = t /\ err = None).
Proof using built answered.
  intros St. rewrite (GitHubLatest_decodes St).
  destruct (json.Decode (http.Body resp) "") as [t [e|]] eqn:D.
  - eexists _, _. split; [reflexivity|]. split.
    + right. eexists. split; [left; discriminate|].
      do 2 (split; [reflexivity|]).
      apply (classify_parse (Error e) (Some e)).
    + intros ms t' B H _. rewrite B in D. simpl in D.
      rewrite (object_holds_tag _ _ H) in D. discriminate.
  - destruct (String.eqb_spec t "") as [->|N].
    + eexists _, _. split; [reflexivity|]. split.
      * right. eexists. split; [now right|].
        do 2 (split; [reflexivity|]).
        apply (classify_parse "missing 'field tag_name'" None).
      * intros ms t' B H N. rewrite B in D. simpl in D.
        rewrite (object_holds_tag _ _ H) in D. injection D as E. now elim N.
    + eexists _, _. split; [reflexivity|]. split.
      * left. now exists t.
      * intros ms t' B H _. rewrite B in D. simpl in D.
        rewrite (object_holds_tag _ _ H) in D. now injection D as <-.
Qed.

(** C5, as amended. When the status is not 404 and the body is a JSON
    object holding the non-empty tag [t] (a member whose key is [tag_name]
    up to the case of its letters, with string value [t], every later such
    member [null] and every earlier one a string or [null]),
    [GitHubLatest] returns [t] itself and no error. *)
Theorem GitHubLatest_returns_tag members t :
  http.StatusCode resp <> 404%Z ->
  http.Body resp = json.Value (json.JObject members) ->
  holds_tag members t ->
  t <> "" ->
  GitHubLatest env owner repo = (t, None, [EvDo req; EvDecode; EvBodyClose; EvCancel]).
Proof using built answered.
  intros St B H N. rewrite (GitHubLatest_decodes St), B. simpl.
  rewrite (object_holds_tag _ _ H).
  now destruct (String.eqb_spec t "").
Qed.

(** C6, as amended. When the status is not 404 and the body is a JSON value
    without the field (not an object, or an object with no member whose key
    is [tag_name] up to the case of its letters) or an object whose last
    such member holds the empty string, [GitHubLatest] returns the empty tag
    and a parse error. *)
Theorem GitHubLatest_missing_tag j :
  http.StatusCode resp <> 404%Z ->
  http.Body resp = json.Value j ->
  tag_absent_or_empty j ->
  exists e,
    GitHubLatest env owner repo = ("", Some e, [EvDo req; EvDecode; EvBodyClose; EvCancel])
    /\ classify e = Some ResponseParseError.
Proof using built answered.
  intros St B H. rewrite (GitHubLatest_decodes St), B.
  assert (O : forall ms, tag_absent_or_empty (json.JObject ms) ->
            exists e,
              match json.object ms ("", None) with
              | (_, Some err) => ("", Some (Errorf_w "parsing JSON response: " err))
              | (TagName, None) =>
                  if (TagName =? "")%string
                  then ("", Some (errorString "parsing JSON response: missing 'field tag_name'"))
                  else (TagName, None)
              end = ("", Some e)
              /\ classify e = Some ResponseParseError).
  { intros ms Hms. pose proof (object_empty_tag _ Hms) as F.
    destruct (json.object ms ("", None)) as [t [e|]]; simpl in F.
    - eexists. split; [reflexivity|]. apply (classify_parse (Error e) (Some e)).
    - subst t. eexists. split; [reflexivity|].
      apply (classify_parse "missing 'field tag_name'" None). }
  destruct j; simpl;
    try (eexists; split; [reflexivity | reflexivity]).
  destruct (O members H) as (e & E & C).
  exists e. now rewrite E.
Qed.

End Fetcher.

Lemma holds_tag_alone t : holds_tag [("tag_name", json.JString t)] t.
Proof.
  exists [], "tag_name", []. repeat split; intros k v [].
Defined.

Lemma GitHubLatest_not_found_witness :
  release.GitHubLatest
    (answering (http.mkResponse 404 (tag_body "v1.2.3"))) "marco-m" "taschino"
  = ("", Some (errorString ("no release found at " ++ release.api_url "marco-m" "taschino")),
     [release.EvDo (http.mkRequest 5000000000 "GET" (release.api_url "marco-m" "taschino"));
      release.EvBodyClose; release.EvCancel])
  /\ classify (errorString ("no release found at " ++ release.api_url "marco-m" "taschino"))
     = Some NotFoundError
  /\ ~ In release.EvDecode
         [release.EvDo (http.mkRequest 5000000000 "GET" (release.api_url "marco-m" "taschino"));
          release.EvBodyClose; release.EvCancel].
Proof.
  exact (GitHubLatest_not_found
           (answering (http.mkResponse 404 (tag_body "v1.2.3"))) "marco-m" "taschino"
           (http.mkRequest 5000000000 "GET" (release.api_url "marco-m" "taschino"))
           (http.mkResponse 404 (tag_body "v1.2.3"))
           eq_refl eq_refl eq_refl).
Defined.

Lemma GitHubLatest_other_status_witness :
  exists tag err,
    release.GitHubLatest
      (answering (http.mkResponse 500 (tag_body "v1.2.3"))) "marco-m" "taschino"
    = (tag, err,
       [release.EvDo (http.mkRequest 5000000000 "GET" (release.api_url "marco-m" "taschino"));
        release.EvDecode; release.EvBodyClose; release.EvCancel])
    /\ tag = "v1.2.3" /\ err = None.
Proof.
  destruct (GitHubLatest_other_status
              (answering (http.mkResponse 500 (tag_body "v1.2.3"))) "marco-m" "taschino"
              (http.mkRequest 5000000000 "GET" (release.api_url "marco-m" "taschino"))
              (http.mkResponse 500 (tag_body "v1.2.3"))
              eq_refl eq_refl ltac:(discriminate))
    as (tag & err & E & _ & H).
  exists tag, err. split; [exact E|].
  apply (H [("tag_name", json.JString "v1.2.3")] "v1.2.3" eq_refl (holds_tag_alone _)).
  discriminate.
Defined.

(** C9 as stated fails: a body that is valid JSON with a non-empty
    [tag_name] does not make the call succeed when another member for the
    field is not a string. *)
Lemma other_status_tag_not_enough :
  exists e,
    fst (release.GitHubLatest
           (answering (http.mkResponse 500 (json.Value (json.JObject
              [("tag_name", json.JString "v1.2.3"); ("Tag_Name", json.JNumber "5")]))))
           "marco-m" "taschino")
    = ("", Some e)
    /\ classify e = Some ResponseParseError.
Proof. eexists. split; reflexivity. Qed.

Lemma GitHubLatest_returns_tag_witness :
  release.GitHubLatest
    (answering (http.mkResponse 200 (tag_body "v1.2.3"))) "marco-m" "taschino"
  = ("v1.2.3", None,
     [release.EvDo (http.mkRequest 5000000000 "GET" (release.api_url "marco-m" "taschino"));
      release.EvDecode; release.EvBodyClose; release.EvCancel]).
Proof.
  apply (GitHubLatest_returns_tag
           (answering (http.mkResponse 200 (tag_body "v1.2.3"))) "marco-m" "taschino"
           (http.mkRequest 5000000000 "GET" (release.api_url "marco-m" "taschino"))
           (http.mkResponse 200 (tag_body "v1.2.3"))
           eq_refl eq_refl [("tag_name", json.JString "v1.2.3")] "v1.2.3").
  - discriminate.
  - reflexivity.
  - apply holds_tag_alone.
  - discriminate.
Defined.

(** C5 as stated fails: with status 404 the tag in the body is not returned;
    a later member for the field replaces an earlier one; a member for the
    field that is not a string makes the call fail. *)
Lemma tag_field_not_returned :
  fst (release.GitHubLatest
         (answering (http.mkResponse 404 (tag_body "v1.2.3"))) "marco-m" "taschino")
  = ("", Some (errorString
       "no release found at https://api.github.com/repos/marco-m/taschino/releases/latest"))
  /\ fst (release.GitHubLatest
            (answering (http.mkResponse 200 (json.Value (json.JObject
               [("tag_name", json.JString "v1.2.3"); ("tag_name", json.JString "v2.0.0")]))))
            "marco-m" "taschino")
     = ("v2.0.0", None)
  /\ fst (fst (release.GitHubLatest
            (answering (http.mkResponse 200 (json.Value (json.JObject
               [("tag_name", json.JString "v1.2.3"); ("Tag_Name", json.JNumber "5")]))))
            "marco-m" "taschino"))
     = "".
Proof. repeat split. Qed.

Lemma GitHubLatest_missing_tag_witness :
  exists e,
    release.GitHubLatest
      (answering (http.mkResponse 200 (json.Value (json.JObject
         [("message", json.JString "moved")])))) "marco-m" "taschino"
    = ("", Some e,
       [release.EvDo (http.mkRequest 5000000000 "GET" (release.api_url "marco-m" "taschino"));
        release.EvDecode; release.EvBodyClose; release.EvCancel])
    /\ classify e = Some ResponseParseError.
Proof.
  apply (GitHubLatest_missing_tag
           (answering (http.mkResponse 200 (json.Value (json.JObject
              [("message", json.JString "moved")])))) "marco-m" "taschino"
           (http.mkRequest 5000000000 "GET" (release.api_url "marco-m" "taschino"))
           (http.mkResponse 200 (json.Value (json.JObject
              [("message", json.JString "moved")])))
           eq_refl eq_refl (json.JObject [("message", json.JString "moved")])).
  - discriminate.
  - reflexivity.
  - left. intros k v [E|[]]. injection E as <- _. reflexivity.
Defined.

(** C6 as stated fails: with status 404 a body without the field gives the
    "no release found" error, not a parse error; and a body without a
    member [tag_name] but with a member [Tag_Name] gives that member's
    value and no error. *)
Lemma missing_tag_not_parse_error :
  (exists e,
     fst (release.GitHubLatest
            (answering (http.mkResponse 404 (json.Value (json.JObject
               [("message", json.JString "Not Found")])))) "marco-m" "taschino")
     = ("", Some e)
     /\ classify e = Some NotFoundError)
  /\ fst (release.GitHubLatest
            (answering (http.mkResponse 200 (json.Value (json.JObject
               [("Tag_Name", json.JString "v1.2.3")])))) "marco-m" "taschino")
     = ("v1.2.3", None).
Proof. split; [eexists; split; reflexivity | reflexivity]. Qed.

(** * Facts about strings and the scanning loops *)

Section Strings.

Lemma length_app (a b : string) :
  String.length (a ++ b) = String.length a + String.length b.
Proof. induction a as [|c a IH]; simpl; [reflexivity | now rewrite IH]. Qed.

Lemma app_assoc (a b c : string) : (a ++ b) ++ c = a ++ b ++ c.
Proof. induction a as [|x a IH]; simpl; [reflexivity | now rewrite IH]. Qed.

Lemma app_nil_r (a : string) : a ++ "" = a.
Proof. induction a as [|x a IH]; simpl; [reflexivity | now rewrite IH]. Qed.

Lemma get_app_length (pre s : string) :
  get (String.length pre) (pre ++ s) = get 0 s.
Proof. induction pre as [|c pre IH]; simpl; [reflexivity | exact IH]. Qed.

Lemma slice_to_app (pre s : string) : slice_to (pre ++ s) (String.length pre) = pre.
Proof. induction pre as [|c pre IH]; simpl; [reflexivity | now rewrite IH]. Qed.

Lemma slice_from_app (pre s : string) : slice_from (pre ++ s) (String.length pre) = s.
Proof. induction pre as [|c pre IH]; simpl; [reflexivity | exact IH]. Qed.

Lemma slice_to_length (v : string) : slice_to v (String.length v) = v.
Proof. induction v as [|c v IH]; simpl; [reflexivity | now rewrite IH]. Qed.

Lemma slice_from_length (v : string) : slice_from v (String.length v) = "".
Proof. induction v as [|c v IH]; simpl; [reflexivity | exact IH]. Qed.

Lemma slice_to_from (v : string) (i : nat) : slice_to v i ++ slice_from v i = v.
Proof.
  revert v. induction i as [|i IH]; intros v; [reflexivity|].
  destruct v as [|c v]; simpl; [reflexivity | now rewrite IH].
Qed.

Lemma slice_app (a b c : string) :
  slice (a ++ b ++ c) (String.length a) (String.length a + String.length b) = b.
Proof.
  unfold slice. rewrite slice_from_app.
  replace (String.length a + String.length b - String.length a)
    with (String.length b) by lia.
  apply slice_to_app.
Qed.

Variable p : ascii -> bool.

Lemma index_while_app (fuel : nat) : forall pre s,
  String.length s <= fuel ->
  index_while p fuel (pre ++ s) (String.length pre) = String.length pre + span_len p s.
Proof.
  induction fuel as [|fuel IH]; intros pre s L.
  - destruct s; [simpl; lia | simpl in L; lia].
  - simpl. rewrite get_app_length.
    destruct s as [|c s]; simpl; [lia|].
    destruct (p c); [|lia].
    replace (pre ++ String c s) with ((pre ++ String c "") ++ s)
      by (now rewrite app_assoc).
    replace (S (String.length pre)) with (String.length (pre ++ String c ""))
      by (rewrite length_app; simpl; lia).
    rewrite IH by (simpl in L; lia).
    rewrite length_app. simpl. lia.
Qed.

Lemma index_while_0 (s : string) :
  index_while p (String.length s) s 0 = span_len p s.
Proof. apply (index_while_app (String.length s) "" s). lia. Qed.

Lemma index_while_1 (c : ascii) (s : string) :
  index_while p (String.length (String c s)) (String c s) 1 = S (span_len p s).
Proof. apply (index_while_app (String.length (String c s)) (String c "") s). simpl. lia. Qed.

Lemma span_len_all (t rest : string) :
  semver_spec.all p t = true -> halts (fun c => negb (p c)) rest ->
  span_len p (t ++ rest) = String.length t.
Proof.
  intros A H. induction t as [|c t IH]; simpl in *.
  - destruct rest as [|c rest]; [reflexivity|]. simpl in H. simpl.
    destruct (p c); [discriminate H | reflexivity].
  - apply andb_prop in A as [-> A]. now rewrite IH.
Qed.

Lemma span_len_sound (s : string) :
  semver_spec.all p (slice_to s (span_len p s)) = true
  /\ halts (fun c => negb (p c)) (slice_from s (span_len p s)).
Proof.
  induction s as [|c s [IH1 IH2]]; simpl; [now split|].
  destruct (p c) eqn:E; simpl.
  - now rewrite E.
  - now rewrite E.
Qed.

Lemma span_len_full (s : string) :
  (span_len p s =? String.length s)%nat = semver_spec.all p s.
Proof.
  induction s as [|c s IH]; simpl; [reflexivity|].
  destruct (p c); simpl; [exact IH | reflexivity].
Qed.

End Strings.

(** * The parser of [semver] against the written form *)

Section Parser.

Import semver semver_spec.

Lemma isNum_all (v : string) : isNum v = all isDigit v.
Proof. unfold isNum. rewrite index_while_0. apply span_len_full. Qed.

Lemma isBadNum_all (v : string) :
  isBadNum v = all isDigit v && (1 <? String.length v)%nat && starts_with "0" v.
Proof.
  unfold isBadNum. rewrite index_while_0, <- span_len_full.
  destruct (Nat.eqb_spec (span_len isDigit v) (String.length v)) as [->|_];
    [|reflexivity].
  now destruct v.
Qed.

Lemma pre_ident_ok (s : string) : pre_ident s = ident_ok isBadNum s.
Proof.
  unfold pre_ident, ident_ok, build_ident. rewrite isBadNum_all.
  destruct s as [|c s]; [reflexivity|].
  cbn [String.eqb negb andb numeric starts_with String.length].
  destruct (all isIdentChar (String c s)); [|reflexivity].
  destruct (all isDigit (String c s)); [|reflexivity].
  cbn [negb orb andb].
  destruct s as [|d s]; simpl; [now rewrite orb_true_r|].
  now rewrite orb_false_r.
Qed.

Lemma build_ident_ok (s : string) : build_ident s = ident_ok (fun _ => false) s.
Proof. unfold build_ident, ident_ok. simpl. now rewrite andb_true_r. Qed.

Lemma parseInt_complete (t rest : string) :
  numeric t = true -> halts (fun c => negb (isDigit c)) rest ->
  parseInt (t ++ rest) = (t, rest, true).
Proof.
  intros N H. destruct t as [|c t]; [discriminate|].
  unfold numeric in N. apply andb_prop in N as [A Z].
  pose proof A as A'. simpl in A'. apply andb_prop in A' as [D A'].
  unfold parseInt. cbn [append].
  unfold isDigit in D. apply andb_prop in D as [D1 D2].
  rewrite D1, D2. cbn [negb orb].
  rewrite index_while_1, (span_len_all _ _ _ A' H).
  assert (Z' : ((c =? "0")%char && negb (S (String.length t) =? 1)%nat) = false).
  { destruct (c =? "0")%char; [|reflexivity]. simpl in Z.
    apply String.eqb_eq in Z. now subst t. }
  rewrite Z'.
  change (String c (t ++ rest)) with (String c t ++ rest).
  change (S (String.length t)) with (String.length (String c t)).
  now rewrite slice_to_app, slice_from_app.
Qed.

Lemma parseInt_sound (v t rest : string) :
  parseInt v = (t, rest, true) ->
  v = t ++ rest /\ numeric t = true /\ halts (fun c => negb (isDigit c)) rest.
Proof.
  unfold parseInt. destruct v as [|c v]; [discriminate|].
  destruct (byte_le "0" c) eqn:D1; [|discriminate].
  destruct (byte_le c "9") eqn:D2; [|discriminate].
  cbn [negb orb]. rewrite index_while_1.
  destruct (span_len_sound isDigit v) as [A H].
  set (n := span_len isDigit v) in *.
  destruct ((c =? "0")%char && negb (S n =? 1)%nat) eqn:Z; [discriminate|].
  intros E. injection E as <- <-. cbn [append slice_to slice_from].
  split; [now rewrite slice_to_from|]. split; [|exact H].
  unfold numeric. cbn [all]. unfold isDigit at 1. rewrite D1, D2, A. cbn [andb].
  destruct (c =? "0")%char; [|reflexivity]. cbn [andb negb orb] in *.
  destruct n; [reflexivity | discriminate].
Qed.

Lemma all_app (p : ascii -> bool) (a b : string) :
  all p (a ++ b) = all p a && all p b.
Proof.
  induction a as [|c a IH]; simpl; [reflexivity|].
  now rewrite IH, andb_assoc.
Qed.

Lemma parsePrerelease_loop_eq fuel : forall v i start,
  parsePrerelease_loop fuel v i start
  = ident_loop (fun c => (c =? "+")%char) isBadNum fuel v i start.
Proof.
  induction fuel as [|fuel IH]; intros v i start; simpl; [reflexivity|].
  destruct (get i v) as [c|]; [|reflexivity].
  now rewrite !IH.
Qed.

Lemma parseBuild_loop_eq fuel : forall v i start,
  parseBuild_loop fuel v i start
  = ident_loop (fun _ => false) (fun _ => false) fuel v i start.
Proof.
  induction fuel as [|fuel IH]; intros v i start; simpl; [reflexivity|].
  destruct (get i v) as [c|]; [|reflexivity].
  now rewrite !IH, orb_false_r.
Qed.

Section IdentLoop.

Variable stop : ascii -> bool.
Variable bad : string -> bool.
Hypothesis stop_ident : forall c, isIdentChar c = true -> stop c = false.
Hypothesis stop_dot : stop "." = false.

Lemma get_at (pre cur s : string) (i : nat) :
  i = String.length pre + String.length cur ->
  get i (pre ++ cur ++ s) = get 0 s.
Proof.
  intros ->. rewrite <- app_assoc, <- length_app. apply get_app_length.
Qed.

(** The test made on an identifier when it ends. *)
Lemma ident_check (pre cur s v : string) (i start : nat) :
  v = pre ++ cur ++ s ->
  i = String.length pre + String.length cur ->
  start = String.length pre ->
  ((start =? i)%nat || bad (slice v start i)) = negb (negb (cur =? "")%string && negb (bad cur)).
Proof.
  intros -> -> ->. rewrite slice_app.
  destruct cur as [|c cur]; simpl.
  - now rewrite Nat.add_0_r, Nat.eqb_refl.
  - destruct (Nat.eqb_spec (String.length pre) (String.length pre + S (String.length cur)));
      [lia|]. simpl. now destruct (bad (String c cur)).
Qed.

Lemma ident_ok_parts (cur : string) :
  ident_ok bad cur = true ->
  negb (negb (cur =? "")%string && negb (bad cur)) = false.
Proof.
  unfold ident_ok. intros H.
  apply andb_prop in H as [H B]. apply andb_prop in H as [E _].
  now rewrite E, B.
Qed.

Lemma ident_ok_head (cur id : string) (c : ascii) :
  ident_ok bad (cur ++ String c id) = true -> isIdentChar c = true.
Proof.
  unfold ident_ok. rewrite all_app. cbn [all].
  intros [[_ [_ [C _]%andb_prop]%andb_prop]%andb_prop _]%andb_prop. exact C.
Qed.

(** One round of the loop on a byte of an identifier. *)
Lemma ident_loop_char (fuel : nat) (v pre cur s : string) (c : ascii) (i start : nat) :
  v = pre ++ cur ++ String c s ->
  i = String.length pre + String.length cur ->
  isIdentChar c = true ->
  ident_loop stop bad (S fuel) v i start = ident_loop stop bad fuel v (S i) start.
Proof.
  intros Hv Hi C.
  assert (G : get i v = Some c) by (now rewrite Hv, (get_at pre cur _ i Hi)).
  simpl. rewrite G, (stop_ident c C), C. cbn [negb andb].
  destruct (Ascii.eqb_spec c ".") as [->|_]; [discriminate C | reflexivity].
Qed.

(** One round of the loop on the dot that ends an acceptable identifier. *)
Lemma ident_loop_dot (fuel : nat) (v pre cur s : string) (i start : nat) :
  v = pre ++ cur ++ String "." s ->
  i = String.length pre + String.length cur ->
  start = String.length pre ->
  ident_ok bad cur = true ->
  ident_loop stop bad (S fuel) v i start = ident_loop stop bad fuel v (S i) (S i).
Proof.
  intros Hv Hi Hs Ok.
  assert (G : get i v = Some "."%char) by (now rewrite Hv, (get_at pre cur _ i Hi)).
  simpl. rewrite G, stop_dot. cbn [negb andb].
  now rewrite (ident_check pre cur _ v i start Hv Hi Hs), (ident_ok_parts _ Ok).
Qed.

(** In the middle of an identifier: take its next byte into [cur] and go on
    by the induction hypothesis [IHid]. *)
Local Ltac inside_ident IHid :=
  lazymatch goal with
  | Hv : ?v = ?pre ++ ?cur ++ String ?c ?id ++ _ ++ ?rest,
    Hi : ?i = String.length _ + String.length _,
    Hs : ?start = String.length _,
    Ok : ident_ok _ _ = true,
    L : _ <= ?fuel |- _ =>
      destruct fuel as [|fuel]; [simpl in L; lia|];
      rewrite (ident_loop_char fuel v pre cur _ c i start Hv Hi (ident_ok_head _ _ _ Ok));
      let i' := fresh "i'" in
      let start' := fresh "start'" in
      let E := fresh "E" in
      let I := fresh "I" in
      let K := fresh "K" in
      destruct (IHid (cur ++ String c "") pre rest fuel v (S i) start)
        as (i' & start' & E & I & K);
      [ rewrite Hv; now rewrite !app_assoc
      | rewrite length_app; simpl; lia
      | exact Hs
      | now rewrite app_assoc
      | eassumption
      | eassumption
      | simpl in L |- *; lia
      | exists i', start'; split; [exact E|]; split; [|exact K];
        rewrite I, length_app; simpl; lia ]
  end.

Lemma ident_loop_complete (ids : list string) :
  forall id cur pre rest fuel v i start,
    v = pre ++ cur ++ id ++ suffix "." ids ++ rest ->
    i = String.length pre + String.length cur ->
    start = String.length pre ->
    ident_ok bad (cur ++ id) = true ->
    Forall (fun x => ident_ok bad x = true) ids ->
    halts stop rest ->
    String.length id + String.length (suffix "." ids) + String.length rest <= fuel ->
    exists i' start',
      ident_loop stop bad fuel v i start = Some (i', start')
      /\ i' = String.length pre + String.length cur + String.length id
              + String.length (suffix "." ids)
      /\ ((start' =? i')%nat || bad (slice v start' i')) = false.
Proof.
  induction ids as [|id2 ids IHids];
    induction id as [|c id IHid]; intros cur pre rest fuel v i start Hv Hi Hs Ok F H L;
    try (inside_ident IHid; fail).
  - (* the last identifier is complete: the scan ends at [rest] *)
    rewrite app_nil_r in Ok. simpl in Hv.
    exists i, start. split; [|split].
    + destruct fuel as [|fuel]; [reflexivity|].
      assert (G : get i v = get 0 rest) by (now rewrite Hv, (get_at pre cur _ i Hi)).
      simpl. rewrite G.
      destruct rest as [|c rest]; [reflexivity|]. simpl in H. simpl. now rewrite H.
    + simpl. lia.
    + rewrite (ident_check pre cur rest v i start Hv Hi Hs).
      now apply ident_ok_parts.
  - (* an identifier ends at a dot *)
    rewrite app_nil_r in Ok. simpl in Hv.
    destruct fuel as [|fuel]; [simpl in L; lia|].
    rewrite (ident_loop_dot fuel v pre cur _ i start Hv Hi Hs Ok).
    inversion F as [|? ? Ok2 F2]; subst x l.
    destruct (IHids id2 "" (pre ++ cur ++ ".") rest fuel v (S i) (S i))
      as (i' & start' & E & I & K).
    + rewrite Hv. simpl. now rewrite !app_assoc.
    + rewrite !length_app. simpl. lia.
    + rewrite !length_app. simpl. lia.
    + exact Ok2.
    + exact F2.
    + exact H.
    + simpl in L. rewrite length_app in L. lia.
    + exists i', start'. split; [exact E|]. split; [|exact K].
      rewrite I. simpl. rewrite !length_app. simpl. lia.
Qed.

Lemma ident_ok_intro (cur : string) :
  all isIdentChar cur = true ->
  negb (negb (cur =? "")%string && negb (bad cur)) = false ->
  ident_ok bad cur = true.
Proof.
  unfold ident_ok. intros -> H.
  destruct (cur =? "")%string; [discriminate|].
  now destruct (bad cur).
Qed.

Lemma ident_loop_sound (s : string) :
  forall pre cur fuel v i start i' start',
    v = pre ++ cur ++ s ->
    i = String.length pre + String.length cur ->
    start = String.length pre ->
    String.length s <= fuel ->
    all isIdentChar cur = true ->
    ident_loop stop bad fuel v i start = Some (i', start') ->
    ((start' =? i')%nat || bad (slice v start' i')) = false ->
    exists id ids rest,
      s = id ++ suffix "." ids ++ rest
      /\ halts stop rest
      /\ ident_ok bad (cur ++ id) = true
      /\ Forall (fun x => ident_ok bad x = true) ids
      /\ i' = String.length pre + String.length cur + String.length id
              + String.length (suffix "." ids).
Proof.
  assert (Here : forall pre cur rest v i start,
             v = pre ++ cur ++ rest ->
             i = String.length pre + String.length cur ->
             start = String.length pre ->
             all isIdentChar cur = true ->
             halts stop rest ->
             ((start =? i)%nat || bad (slice v start i)) = false ->
             exists id ids rest',
               rest = id ++ suffix "." ids ++ rest'
               /\ halts stop rest'
               /\ ident_ok bad (cur ++ id) = true
               /\ Forall (fun x => ident_ok bad x = true) ids
               /\ i = String.length pre + String.length cur + String.length id
                      + String.length (suffix "." ids)).
  { intros pre cur rest v i start Hv Hi Hs A H K.
    rewrite (ident_check pre cur rest v i start Hv Hi Hs) in K.
    exists "", [], rest. rewrite app_nil_r. simpl.
    repeat split; [exact H | now apply ident_ok_intro | constructor | lia]. }
  induction s as [|c s IH]; intros pre cur fuel v i start i' start' Hv Hi Hs L A E K.
  - assert (R : ident_loop stop bad fuel v i start = Some (i, start)).
    { destruct fuel as [|fuel]; [reflexivity|]. simpl.
      assert (G : get i v = None) by (now rewrite Hv, (get_at pre cur _ i Hi)).
      now rewrite G. }
    rewrite R in E. injection E as <- <-.
    now apply (Here pre cur "" v i start).
  - destruct fuel as [|fuel]; [simpl in L; lia|].
    assert (G : get i v = Some c) by (now rewrite Hv, (get_at pre cur _ i Hi)).
    simpl in E. rewrite G in E.
    destruct (stop c) eqn:St.
    { injection E as <- <-. now apply (Here pre cur (String c s) v i start). }
    destruct (Ascii.eqb_spec c ".") as [->|ND].
    + change (isIdentChar ".") with false in E. cbn [negb andb] in E.
      destruct ((start =? i)%nat || bad (slice v start i)) eqn:K0; [discriminate|].
      rewrite (ident_check pre cur _ v i start Hv Hi Hs) in K0.
      destruct (IH (pre ++ cur ++ ".") "" fuel v (S i) (S i) i' start')
        as (id2 & ids2 & rest & Es & H & Ok2 & F & I); try assumption.
      * rewrite Hv. simpl. now rewrite !app_assoc.
      * rewrite !length_app. simpl. lia.
      * rewrite !length_app. simpl. lia.
      * simpl in L. lia.
      * reflexivity.
      * exists "", (id2 :: ids2), rest. rewrite app_nil_r. simpl.
        repeat split.
        -- now rewrite Es, app_assoc.
        -- exact H.
        -- now apply ident_ok_intro.
        -- now constructor.
        -- rewrite I, !length_app. simpl. lia.
    + destruct (isIdentChar c) eqn:C; [|discriminate]. cbn [negb andb] in E.
      destruct (IH pre (cur ++ String c "") fuel v (S i) start i' start')
        as (id & ids & rest & Es & H & Ok & F & I); try assumption.
      * rewrite Hv. now rewrite !app_assoc.
      * rewrite length_app. simpl. lia.
      * simpl in L. lia.
      * rewrite all_app, A. simpl. now rewrite C.
      * exists (String c id), ids, rest.
        repeat split.
        -- now rewrite Es.
        -- exact H.
        -- now rewrite app_assoc in Ok.
        -- exact F.
        -- rewrite I, length_app. simpl. lia.
Qed.

End IdentLoop.

Lemma plus_not_ident (c : ascii) : isIdentChar c = true -> (c =? "+")%char = false.
Proof. destruct (Ascii.eqb_spec c "+") as [->|_]; [discriminate | reflexivity]. Qed.

Lemma Forall_ok (f g : string -> bool) (ids : list string) :
  (forall x, f x = g x) ->
  Forall (fun x => f x = true) ids <-> Forall (fun x => g x = true) ids.
Proof.
  intros E. split; intros F; induction F; constructor; try assumption.
  - now rewrite <- E.
  - now rewrite E.
Qed.

Lemma parsePrerelease_complete (ids : list string) (rest : string) :
  ids <> [] ->
  Forall (fun id => pre_ident id = true) ids ->
  halts (fun c => (c =? "+")%char) rest ->
  parsePrerelease (suffix "-" ids ++ rest) = (suffix "-" ids, rest, true).
Proof.
  intros N F H. destruct ids as [|id ids]; [now elim N|].
  inversion F as [|? ? Ok F']; subst x l.
  apply (Forall_ok _ _ _ pre_ident_ok) in F'. rewrite pre_ident_ok in Ok.
  set (v := suffix "-" (id :: ids) ++ rest).
  destruct (ident_loop_complete (fun c => (c =? "+")%char) isBadNum plus_not_ident eq_refl
              ids id "" "-" rest (String.length v) v 1 1) as (i' & start' & E & I & K);
    try assumption; try reflexivity.
  - unfold v. simpl. now rewrite app_assoc.
  - unfold v. simpl. rewrite !length_app. lia.
  - unfold parsePrerelease. fold v.
    change v with (String "-" ((id ++ suffix "." ids) ++ rest)) at 1.
    cbn [Ascii.eqb Bool.eqb negb]. cbv iota.
    rewrite parsePrerelease_loop_eq, E, K.
    replace i' with (String.length (suffix "-" (id :: ids)))
      by (rewrite I; simpl; rewrite length_app; lia).
    unfold v. now rewrite slice_to_app, slice_from_app.
Qed.

Lemma parsePrerelease_sound (v t rest : string) :
  parsePrerelease v = (t, rest, true) ->
  exists ids,
    ids <> [] /\ Forall (fun id => pre_ident id = true) ids
    /\ t = suffix "-" ids /\ v = t ++ rest
    /\ halts (fun c => (c =? "+")%char) rest.
Proof.
  unfold parsePrerelease. destruct v as [|c v]; [discriminate|].
  destruct (Ascii.eqb_spec c "-") as [->|_]; [|discriminate]. cbn [negb].
  rewrite parsePrerelease_loop_eq.
  destruct (ident_loop _ _ _ _ 1 1) as [[i' start']|] eqn:E; [|discriminate].
  destruct ((start' =? i')%nat || isBadNum (slice (String "-" v) start' i')) eqn:K;
    [discriminate|].
  intros R. injection R as <- <-.
  destruct (ident_loop_sound (fun c => (c =? "+")%char) isBadNum
              v "-" "" _ (String "-" v) 1 1 i' start' eq_refl eq_refl eq_refl
              (Nat.le_succ_diag_r _) eq_refl E K)
    as (id & ids & rest & Es & H & Ok & F & I).
  exists (id :: ids). repeat split.
  - discriminate.
  - apply (Forall_ok _ _ _ pre_ident_ok). now constructor.
  - subst v i'. simpl.
    replace (String.length id + String.length (suffix "." ids))
      with (String.length (id ++ suffix "." ids)) by apply length_app.
    now rewrite <- app_assoc, slice_to_app.
  - now rewrite slice_to_from.
  - subst v i'. simpl.
    replace (String.length id + String.length (suffix "." ids))
      with (String.length (id ++ suffix "." ids)) by apply length_app.
    now rewrite <- app_assoc, slice_from_app.
Qed.

Lemma halts_never (rest : string) : halts (fun _ => false) rest -> rest = "".
Proof. destruct rest; [reflexivity | discriminate]. Qed.

Lemma parseBuild_complete (ids : list string) :
  ids <> [] ->
  Forall (fun id => build_ident id = true) ids ->
  parseBuild (suffix "+" ids) = (suffix "+" ids, "", true).
Proof.
  intros N F. destruct ids as [|id ids]; [now elim N|].
  inversion F as [|? ? Ok F']; subst x l.
  apply (Forall_ok _ _ _ build_ident_ok) in F'. rewrite build_ident_ok in Ok.
  set (v := suffix "+" (id :: ids)).
  destruct (ident_loop_complete (fun _ => false) (fun _ => false) (fun _ _ => eq_refl) eq_refl
              ids id "" "+" "" (String.length v) v 1 1) as (i' & start' & E & I & K);
    try assumption; try reflexivity.
  - unfold v. simpl. now rewrite app_nil_r.
  - unfold v. simpl. rewrite !length_app. simpl. lia.
  - unfold parseBuild. fold v.
    change v with (String "+" (id ++ suffix "." ids)) at 1.
    cbn [Ascii.eqb Bool.eqb negb]. cbv iota.
    rewrite parseBuild_loop_eq, E. rewrite orb_false_r in K. rewrite K.
    replace i' with (String.length v)
      by (rewrite I; unfold v; simpl; rewrite length_app; lia).
    now rewrite slice_to_length, slice_from_length.
Qed.

Lemma parseBuild_sound (v t rest : string) :
  parseBuild v = (t, rest, true) ->
  exists ids,
    ids <> [] /\ Forall (fun id => build_ident id = true) ids
    /\ t = suffix "+" ids /\ v = t /\ rest = "".
Proof.
  unfold parseBuild. destruct v as [|c v]; [discriminate|].
  destruct (Ascii.eqb_spec c "+") as [->|_]; [|discriminate]. cbn [negb].
  rewrite parseBuild_loop_eq.
  destruct (ident_loop _ _ _ _ 1 1) as [[i' start']|] eqn:E; [|discriminate].
  destruct (start' =? i')%nat eqn:K; [discriminate|].
  intros R. injection R as <- <-.
  destruct (ident_loop_sound (fun _ => false) (fun _ => false)
              v "+" "" _ (String "+" v) 1 1 i' start' eq_refl eq_refl eq_refl
              (Nat.le_succ_diag_r _) eq_refl E)
    as (id & ids & rest & Es & H & Ok & F & I).
  { now rewrite K. }
  apply halts_never in H. subst rest. rewrite app_nil_r in Es.
  assert (T : slice_to (String "+" v) i' = String "+" v).
  { subst v i'. simpl.
    replace (String.length id + String.length (suffix "." ids))
      with (String.length (id ++ suffix "." ids)) by apply length_app.
    rewrite <- (app_nil_r (id ++ suffix "." ids)) at 1.
    now rewrite slice_to_app. }
  exists (id :: ids). repeat split.
  - discriminate.
  - apply (Forall_ok _ _ _ build_ident_ok). now constructor.
  - rewrite T. now subst v.
  - now rewrite T.
  - pose proof (slice_to_from (String "+" v) i') as S. rewrite T in S.
    clear -S. revert S. generalize (slice_from (String "+" v) i'). intros r.
    generalize (String "+" v). intros a. induction a as [|x a IH]; simpl.
    + now intros ->.
    + intros S. injection S as S. now apply IH.
Qed.

Lemma written_parsed_as (v : string) (ver : version) :
  written v ver <-> exists p, parsed_as v p ver.
Proof.
  split.
  - intros W. destruct W; eexists; constructor; assumption.
  - intros [p P]. destruct P; constructor; assumption.
Qed.

Lemma parseInt_whole (t : string) : numeric t = true -> parseInt t = (t, "", true).
Proof.
  intros N. rewrite <- (app_nil_r t) at 1. now apply parseInt_complete.
Qed.

Lemma halts_suffixes (p : ascii -> bool) (pre bld : list string) :
  p "-"%char = true -> p "+"%char = true ->
  halts p (suffix "-" pre ++ suffix "+" bld).
Proof. intros M P. destruct pre, bld; simpl; auto. Qed.

Lemma parse_complete (v : string) (p : parsed) (ver : version) :
  parsed_as v p ver -> parse v = (p, true).
Proof.
  intros P. destruct P as [maj N1 | maj min N1 N2 | maj min pat pre bld N1 N2 N3 F1 F2];
    unfold parse; cbn [append slice_from Ascii.eqb Bool.eqb negb]; cbv iota.
  - now rewrite (parseInt_whole _ N1).
  - rewrite (parseInt_complete maj _ N1) by reflexivity.
    cbn [negb String.eqb starts_with Ascii.eqb Bool.eqb slice_from]. cbv iota.
    now rewrite (parseInt_whole _ N2).
  - rewrite (parseInt_complete maj _ N1) by reflexivity.
    cbn [negb String.eqb starts_with Ascii.eqb Bool.eqb slice_from]. cbv iota.
    rewrite (parseInt_complete min _ N2) by reflexivity.
    cbn [negb String.eqb starts_with Ascii.eqb Bool.eqb slice_from]. cbv iota.
    rewrite (parseInt_complete pat _ N3) by (now apply halts_suffixes).
    cbn [negb]. cbv iota.
    assert (E1 : (if starts_with "-" (suffix "-" pre ++ suffix "+" bld)
                  then parsePrerelease (suffix "-" pre ++ suffix "+" bld)
                  else ("", suffix "-" pre ++ suffix "+" bld, true))
                 = (suffix "-" pre, suffix "+" bld, true)).
    { destruct pre as [|id pre].
      - simpl. now destruct bld.
      - rewrite parsePrerelease_complete; try assumption; try discriminate.
        + reflexivity.
        + now destruct bld. }
    rewrite E1. cbn [negb]. cbv iota.
    assert (E2 : (if starts_with "+" (suffix "+" bld)
                  then parseBuild (suffix "+" bld)
                  else ("", suffix "+" bld, true))
                 = (suffix "+" bld, "", true)).
    { destruct bld as [|id bld]; [reflexivity|].
      rewrite parseBuild_complete; try assumption; try discriminate. reflexivity. }
    now rewrite E2.
Qed.

Lemma starts_with_inv (c : ascii) (v : string) :
  starts_with c v = true -> v = String c (slice_from v 1).
Proof.
  destruct v as [|d v]; [discriminate|]. simpl.
  now intros ->%Ascii.eqb_eq.
Qed.

Lemma parse_sound (v : string) (p : parsed) :
  parse v = (p, true) -> exists ver, parsed_as v p ver.
Proof.
  unfold parse. destruct v as [|c0 v]; [discriminate|].
  destruct (Ascii.eqb_spec c0 "v") as [->|_]; [|discriminate].
  cbn [negb slice_from].
  destruct (parseInt v) as [[maj v1] ok1] eqn:P1.
  destruct ok1; [|discriminate]. cbn [negb].
  apply parseInt_sound in P1 as (-> & N1 & _).
  destruct (String.eqb_spec v1 "") as [->|_].
  { intros E. injection E as <-. rewrite app_nil_r.
    eexists. now apply (parsed_major maj). }
  destruct (starts_with "." v1) eqn:S1; [|discriminate]. cbn [negb].
  apply starts_with_inv in S1. rewrite S1. clear S1.
  generalize (slice_from v1 1). clear v1. intros v1.
  destruct (parseInt v1) as [[min v2] ok2] eqn:P2.
  destruct ok2; [|discriminate]. cbn [negb].
  apply parseInt_sound in P2 as (-> & N2 & _).
  destruct (String.eqb_spec v2 "") as [->|_].
  { intros E. injection E as <-. rewrite app_nil_r.
    eexists. now apply (parsed_minor maj min). }
  destruct (starts_with "." v2) eqn:S2; [|discriminate]. cbn [negb].
  apply starts_with_inv in S2. rewrite S2. clear S2.
  generalize (slice_from v2 1). clear v2. intros v2.
  destruct (parseInt v2) as [[pat v3] ok3] eqn:P3.
  destruct ok3; [|discriminate]. cbn [negb].
  apply parseInt_sound in P3 as (-> & N3 & _).
  assert (Pre : forall t r ok,
             (if starts_with "-" v3 then parsePrerelease v3 else ("", v3, true)) = (t, r, ok) ->
             ok = true ->
             exists pre, Forall (fun id => pre_ident id = true) pre
                         /\ t = suffix "-" pre /\ v3 = t ++ r).
  { intros t r ok E ->. destruct (starts_with "-" v3).
    - apply parsePrerelease_sound in E as (ids & _ & F & T & V & _). now exists ids.
    - injection E as <- <-. now exists []. }
  destruct (if starts_with "-" v3 then parsePrerelease v3 else ("", v3, true))
    as [[t4 v4] ok4] eqn:P4.
  destruct ok4; [|discriminate]. cbn [negb].
  destruct (Pre _ _ _ eq_refl eq_refl) as (pre & F1 & -> & ->). clear Pre P4.
  assert (Bld : forall t r ok,
             (if starts_with "+" v4 then parseBuild v4 else ("", v4, true)) = (t, r, ok) ->
             ok = true -> (r =? "")%string = true ->
             exists bld, Forall (fun id => build_ident id = true) bld
                         /\ t = suffix "+" bld /\ v4 = t).
  { intros t r ok E -> R. apply String.eqb_eq in R. subst r.
    destruct (starts_with "+" v4).
    - apply parseBuild_sound in E as (ids & _ & F & T & V & _). now exists ids.
    - injection E as <- ->. now exists []. }
  destruct (if starts_with "+" v4 then parseBuild v4 else ("", v4, true))
    as [[t5 v5] ok5] eqn:P5.
  destruct ok5; [|discriminate]. cbn [negb].
  destruct (v5 =? "")%string eqn:R; [|discriminate]. cbn [negb].
  destruct (Bld _ _ _ eq_refl eq_refl R) as (bld & F2 & -> & ->). clear Bld P5.
  intros E. injection E as <-.
  eexists. apply (parsed_patch maj min pat pre bld); assumption.
Qed.

Lemma IsValid_written (v : string) : IsValid v = true <-> exists ver, written v ver.
Proof.
  unfold IsValid. split.
  - destruct (parse v) as [p ok] eqn:P. simpl. intros ->.
    destruct (parse_sound _ _ P) as [ver W]. exists ver.
    apply written_parsed_as. now exists p.
  - intros [ver W]. apply written_parsed_as in W as [p W].
    now rewrite (parse_complete _ _ _ W).
Qed.

End Parser.

(** * The comparisons of [semver] against precedence *)

Section Numbers.

Import semver semver_spec.

Local Open Scope N_scope.

Lemma isDigit_N (c : ascii) : isDigit c = true -> 48 <= N_of_ascii c <= 57.
Proof.
  unfold isDigit, byte_le. intros H. apply andb_prop in H as [L U].
  apply Nat.leb_le in L, U. unfold nat_of_ascii in L, U.
  change (N.to_nat (N_of_ascii "0")) with 48%nat in L.
  change (N.to_nat (N_of_ascii "9")) with 57%nat in U.
  lia.
Qed.

Lemma digit_value_le (c : ascii) : isDigit c = true -> digit_value c <= 9.
Proof. intros H%isDigit_N. unfold digit_value. lia. Qed.

Lemma digit_value_pos (c : ascii) :
  isDigit c = true -> (c =? "0")%char = false -> 1 <= digit_value c.
Proof.
  intros H%isDigit_N E. apply Ascii.eqb_neq in E. unfold digit_value.
  assert (N_of_ascii c <> 48); [|lia].
  intros K. apply E. rewrite <- (ascii_N_embedding c), K. reflexivity.
Qed.

Lemma value_lt (s : string) :
  all isDigit s = true -> value s < 10 ^ N.of_nat (String.length s).
Proof.
  induction s as [|c s IH]; cbn [all value String.length]; [simpl; lia|]. intros H.
  apply andb_prop in H as [D A]. specialize (IH A).
  apply digit_value_le in D.
  rewrite Nat2N.inj_succ, N.pow_succ_r'. nia.
Qed.

Lemma value_ge (c : ascii) (s : string) :
  isDigit c = true -> (c =? "0")%char = false ->
  10 ^ N.of_nat (String.length s) <= value (String c s).
Proof.
  intros D Z. pose proof (digit_value_pos c D Z). cbn [value]. nia.
Qed.

Lemma compare_value (x : string) : forall y,
  String.length x = String.length y ->
  all isDigit x = true -> all isDigit y = true ->
  String.compare x y = (value x ?= value y).
Proof.
  induction x as [|c x IH]; intros [|d y] L Ax Ay; try discriminate; [reflexivity|].
  simpl in L. injection L as L. simpl in Ax, Ay.
  apply andb_prop in Ax as [Dc Ax]. apply andb_prop in Ay as [Dd Ay].
  pose proof (value_lt x Ax) as Bx. pose proof (value_lt y Ay) as By.
  pose proof (isDigit_N c Dc). pose proof (isDigit_N d Dd).
  cbn [String.compare value]. unfold Ascii.compare. rewrite <- L in *.
  unfold digit_value.
  destruct (N.compare_spec (N_of_ascii c) (N_of_ascii d)) as [E|E|E].
  - rewrite E, (IH y L Ax Ay).
    destruct (N.compare_spec (value x) (value y)); symmetry;
      [apply N.compare_eq_iff | apply N.compare_lt_iff | apply N.compare_gt_iff]; lia.
  - symmetry. apply N.compare_lt_iff. nia.
  - symmetry. apply N.compare_gt_iff. nia.
Qed.

Lemma numeric_digits (s : string) : numeric s = true -> all isDigit s = true.
Proof. destruct s; [discriminate|]. unfold numeric. now intros [A _]%andb_prop. Qed.

Lemma numeric_shorter (x y : string) :
  numeric x = true -> numeric y = true ->
  (String.length x < String.length y)%nat -> value x < value y.
Proof.
  intros Nx Ny L. pose proof (value_lt x (numeric_digits x Nx)) as Bx.
  destruct y as [|d y]; [discriminate|].
  unfold numeric in Ny. apply andb_prop in Ny as [Ay Zy].
  simpl in Ay. apply andb_prop in Ay as [Dd Ay].
  destruct x as [|c x]; [discriminate|].
  destruct y as [|e y]; [simpl in L; lia|].
  simpl in Zy. rewrite orb_false_r in Zy. apply negb_true_iff in Zy.
  pose proof (value_ge d (String e y) Dd Zy) as Gy.
  assert (10 ^ N.of_nat (String.length (String c x))
          <= 10 ^ N.of_nat (String.length (String e y))); [|lia].
  apply N.pow_le_mono_r; [lia|]. simpl in L |- *. lia.
Qed.

(** Distinct numbers without leading zeros: shorter is smaller, and at
    equal length the byte order is the numeric order. *)
Lemma numeric_order (x y : string) :
  numeric x = true -> numeric y = true -> x <> y ->
  (if (String.length x <? String.length y)%nat then (-1)%Z
   else if (String.length y <? String.length x)%nat then 1%Z
   else if String.ltb x y then (-1)%Z else 1%Z)
  = sign (value x ?= value y)
  /\ (value x ?= value y) <> Eq.
Proof.
  intros Nx Ny D.
  destruct (Nat.ltb_spec (String.length x) (String.length y)) as [L|L].
  { pose proof (numeric_shorter x y Nx Ny L) as V.
    apply N.compare_lt_iff in V. rewrite V. now split. }
  destruct (Nat.ltb_spec (String.length y) (String.length x)) as [L'|L'].
  { pose proof (numeric_shorter y x Ny Nx L') as V.
    apply N.compare_gt_iff in V. rewrite V. now split. }
  assert (E : String.length x = String.length y) by lia.
  pose proof (compare_value x y E (numeric_digits x Nx) (numeric_digits y Ny)) as C.
  unfold String.ltb. rewrite C.
  destruct (value x ?= value y) eqn:V; try (now split).
  apply String.compare_eq_iff in C. contradiction.
Qed.

Lemma compareInt_value (x y : string) :
  numeric x = true -> numeric y = true ->
  compareInt x y = sign (value x ?= value y).
Proof.
  intros Nx Ny. unfold compareInt.
  destruct (String.eqb_spec x y) as [->|D].
  - now rewrite N.compare_refl.
  - apply (numeric_order x y Nx Ny D).
Qed.

End Numbers.

Section Prerelease.

Import semver semver_spec.

Lemma ident_no_dot (id : string) : all isIdentChar id = true -> all not_dot id = true.
Proof.
  induction id as [|c id IH]; simpl; [reflexivity|].
  intros [C A]%andb_prop. rewrite (IH A), andb_true_r. unfold not_dot.
  destruct (Ascii.eqb_spec c ".") as [->|_]; [discriminate C | reflexivity].
Qed.

Lemma pre_ident_no_dot (id : string) : pre_ident id = true -> all not_dot id = true.
Proof.
  unfold pre_ident, build_ident. intros [[_ A]%andb_prop _]%andb_prop.
  now apply ident_no_dot.
Qed.

Lemma nextIdent_suffix (id : string) (ids : list string) :
  all not_dot id = true ->
  nextIdent (id ++ suffix "." ids) = (id, suffix "." ids).
Proof.
  intros A. unfold nextIdent. fold not_dot.
  rewrite index_while_0, (span_len_all not_dot id _ A).
  - now rewrite slice_to_app, slice_from_app.
  - now destruct ids.
Qed.

Lemma suffix_inj (xs : list string) : forall ys c,
  Forall (fun id => all not_dot id = true) xs ->
  Forall (fun id => all not_dot id = true) ys ->
  suffix c xs = suffix c ys -> xs = ys.
Proof.
  induction xs as [|x xs IH]; intros [|y ys] c Fx Fy E; try discriminate; [reflexivity|].
  inversion Fx as [|? ? Ax Fx']; subst. inversion Fy as [|? ? Ay Fy']; subst.
  simpl in E. injection E as E.
  pose proof (nextIdent_suffix x xs Ax) as Nx.
  rewrite E, (nextIdent_suffix y ys Ay) in Nx. injection Nx as <- S.
  f_equal. now apply (IH ys "."%char).
Qed.

Lemma comparePrerelease_loop_idents (xs : list string) : forall ys cx cy fuel,
  Forall (fun id => all not_dot id = true) xs ->
  Forall (fun id => all not_dot id = true) ys ->
  (String.length (suffix cx xs) < fuel)%nat ->
  comparePrerelease_loop fuel (suffix cx xs) (suffix cy ys) = identsCompare xs ys.
Proof.
  induction xs as [|x xs IH]; intros ys cx cy fuel Fx Fy L.
  - destruct fuel; reflexivity.
  - destruct fuel as [|fuel]; [lia|].
    destruct ys as [|y ys]; [reflexivity|].
    inversion Fx as [|? ? Ax Fx']; subst. inversion Fy as [|? ? Ay Fy']; subst.
    cbn [comparePrerelease_loop suffix String.eqb negb andb slice_from].
    rewrite (nextIdent_suffix x xs Ax), (nextIdent_suffix y ys Ay).
    cbn [identsCompare]. unfold identCompare.
    destruct (negb (x =? y)%string); [reflexivity|].
    apply IH; try assumption.
    simpl in L. rewrite length_app in L. lia.
Qed.

Lemma string_compare_refl (s : string) : String.compare s s = Eq.
Proof.
  induction s as [|c s IH]; simpl; [reflexivity|].
  unfold Ascii.compare. now rewrite N.compare_refl.
Qed.

Lemma ident_compare_refl (a : ident) : ident_compare a a = Eq.
Proof. destruct a; simpl; [apply N.compare_refl | apply string_compare_refl]. Qed.

Lemma idents_compare_refl (l : list ident) : idents_compare l l = Eq.
Proof.
  induction l as [|a l IH]; simpl; [reflexivity|].
  now rewrite ident_compare_refl.
Qed.

Lemma pre_ident_numeric (x : string) :
  pre_ident x = true -> all isDigit x = true -> numeric x = true.
Proof.
  unfold pre_ident. intros [_ H]%andb_prop A. now rewrite A in H.
Qed.

Lemma identCompare_precedence (x y : string) :
  pre_ident x = true -> pre_ident y = true -> x <> y ->
  identCompare x y = sign (ident_compare (ident_of x) (ident_of y))
  /\ ident_compare (ident_of x) (ident_of y) <> Eq.
Proof.
  intros Px Py D. unfold identCompare, ident_of. rewrite !isNum_all.
  destruct (all isDigit x) eqn:Ax, (all isDigit y) eqn:Ay; cbn [Bool.eqb negb andb];
    try (split; [reflexivity | discriminate]).
  - apply numeric_order; auto using pre_ident_numeric.
  - simpl. unfold String.ltb.
    destruct (String.compare x y) eqn:C; try (split; [reflexivity | discriminate]).
    apply String.compare_eq_iff in C. contradiction.
Qed.

Lemma identsCompare_precedence (xs : list string) : forall ys,
  Forall (fun id => pre_ident id = true) xs ->
  Forall (fun id => pre_ident id = true) ys ->
  xs <> ys ->
  identsCompare xs ys = sign (idents_compare (map ident_of xs) (map ident_of ys)).
Proof.
  induction xs as [|x xs IH]; intros [|y ys] Fx Fy D; try reflexivity; [now elim D|].
  inversion Fx as [|? ? Px Fx']; subst. inversion Fy as [|? ? Py Fy']; subst.
  cbn [identsCompare map idents_compare].
  destruct (String.eqb_spec x y) as [->|N]; cbn [negb].
  - rewrite ident_compare_refl. apply IH; try assumption.
    intros ->. now apply D.
  - destruct (identCompare_precedence x y Px Py N) as [-> NE].
    now destruct (ident_compare (ident_of x) (ident_of y)).
Qed.

Lemma comparePrerelease_precedence (xs ys : list string) :
  Forall (fun id => pre_ident id = true) xs ->
  Forall (fun id => pre_ident id = true) ys ->
  comparePrerelease (suffix "-" xs) (suffix "-" ys)
  = sign (prerelease_compare (map ident_of xs) (map ident_of ys)).
Proof.
  intros Fx Fy.
  assert (Dx : Forall (fun id => all not_dot id = true) xs)
    by (eapply Forall_impl; [|exact Fx]; apply pre_ident_no_dot).
  assert (Dy : Forall (fun id => all not_dot id = true) ys)
    by (eapply Forall_impl; [|exact Fy]; apply pre_ident_no_dot).
  unfold comparePrerelease.
  destruct (String.eqb_spec (suffix "-" xs) (suffix "-" ys)) as [E|N].
  - apply suffix_inj in E; try assumption. subst ys.
    destruct xs; simpl; [reflexivity|].
    now rewrite ident_compare_refl, idents_compare_refl.
  - destruct xs as [|x xs]; [destruct ys; [now elim N | reflexivity]|].
    destruct ys as [|y ys]; [reflexivity|].
    cbn [String.eqb suffix].
    change (String "-" (x ++ suffix "." xs)) with (suffix "-" (x :: xs)).
    change (String "-" (y ++ suffix "." ys)) with (suffix "-" (y :: ys)).
    rewrite comparePrerelease_loop_idents by (try assumption; lia).
    rewrite identsCompare_precedence; try assumption; [reflexivity|].
    intros E. apply N. now rewrite E.
Qed.

End Prerelease.

Section Precedence.

Import semver semver_spec.

Lemma parsed_fields (v : string) (p : parsed) (ver : version) :
  parsed_as v p ver ->
  (numeric (major p) = true /\ value (major p) = v_major ver)
  /\ (numeric (minor p) = true /\ value (minor p) = v_minor ver)
  /\ (numeric (patch p) = true /\ value (patch p) = v_patch ver)
  /\ exists pre,
       Forall (fun id => pre_ident id = true) pre
       /\ prerelease p = suffix "-" pre
       /\ v_prerelease ver = map ident_of pre.
Proof.
  intros P. destruct P; simpl; repeat split; try assumption;
    try (exists []; repeat split; constructor).
  exists pre. now repeat split.
Qed.

Lemma sign_zero (c : comparison) : (sign c =? 0)%Z = match c with Eq => true | _ => false end.
Proof. now destruct c. Qed.

Lemma semver_Compare_sign (v w : string) (p q : parsed) (a b : version) :
  parsed_as v p a -> parsed_as w q b ->
  semver.Compare v w = sign (precedence a b).
Proof.
  intros Pv Pw. unfold semver.Compare.
  rewrite (parse_complete _ _ _ Pv), (parse_complete _ _ _ Pw). cbn [negb andb].
  destruct (parsed_fields _ _ _ Pv) as ((N1 & V1) & (N2 & V2) & (N3 & V3) & pre1 & F1 & E1 & R1).
  destruct (parsed_fields _ _ _ Pw) as ((M1 & W1) & (M2 & W2) & (M3 & W3) & pre2 & F2 & E2 & R2).
  rewrite (compareInt_value _ _ N1 M1), (compareInt_value _ _ N2 M2),
    (compareInt_value _ _ N3 M3), E1, E2, (comparePrerelease_precedence _ _ F1 F2).
  unfold precedence. rewrite !sign_zero, <- V1, <- V2, <- V3, <- W1, <- W2, <- W3, R1, R2.
  destruct (value (major p) ?= value (major q))%N; try reflexivity.
  destruct (value (minor p) ?= value (minor q))%N; try reflexivity.
  destruct (value (patch p) ?= value (patch q))%N; reflexivity.
Qed.

Lemma release_Compare_sign (curV latestV : string) (a b : version) :
  written curV a -> written latestV b ->
  release.Compare curV latestV = (sign (precedence a b), None).
Proof.
  intros Wa Wb. unfold release.Compare.
  rewrite (proj2 (IsValid_written curV) (ex_intro _ a Wa)),
    (proj2 (IsValid_written latestV) (ex_intro _ b Wb)).
  apply written_parsed_as in Wa as [p Pa]. apply written_parsed_as in Wb as [q Pb].
  cbn [negb]. now rewrite (semver_Compare_sign _ _ _ _ _ _ Pa Pb).
Qed.

Lemma precedence_same_but_build (a a' b b' : version) :
  same_but_build a a' -> same_but_build b b' -> precedence a' b' = precedence a b.
Proof.
  intros (A1 & A2 & A3 & A4) (B1 & B2 & B3 & B4). unfold precedence.
  now rewrite A1, A2, A3, A4, B1, B2, B3, B4.
Qed.

Lemma precedence_prerelease_first (a b : version) :
  v_major a = v_major b -> v_minor a = v_minor b -> v_patch a = v_patch b ->
  v_prerelease a <> [] -> v_prerelease b = [] ->
  precedence a b = Lt.
Proof.
  intros E1 E2 E3 N E. unfold precedence.
  rewrite E1, E2, E3, E, !N.compare_refl.
  destruct (v_prerelease a); [now elim N | reflexivity].
Qed.

End Precedence.

(** * Properties of [Compare] *)

(** C3. The three comparisons of the test list. *)
Theorem Compare_examples :
  release.Compare "v1.2.3" "v1.2.3" = (0%Z, None)
  /\ release.Compare "v1.2.3" "v1.3.0" = ((-1)%Z, None)
  /\ release.Compare "v2.0.0" "v1.9.9" = (1%Z, None).
Proof. repeat split; vm_compute; reflexivity. Qed.

(** C4. When an input is not a valid version, [Compare] returns an error
    that says which one: the installed version when it is invalid, else the
    latest version; the message ends with the offending string. So
    [Compare "not-a-version" "v1.0.0"] fails on its first argument. *)
Theorem Compare_invalid_input :
  (forall curV latestV,
      semver.IsValid curV = false \/ semver.IsValid latestV = false ->
      exists e,
        snd (release.Compare curV latestV) = Some e
        /\ ((semver.IsValid curV = false
             /\ e = errorString ("installed version is not a valid semver: " ++ curV)
             /\ classify e = Some InvalidInstalledVersion)
            \/ (semver.IsValid curV = true /\ semver.IsValid latestV = false
                /\ e = errorString ("latest version is not a valid semver: " ++ latestV)
                /\ classify e = Some InvalidLatestVersion)))
  /\ release.Compare "not-a-version" "v1.0.0"
     = (0%Z, Some (errorString "installed version is not a valid semver: not-a-version")).
Proof.
  split; [|vm_compute; reflexivity].
  intros curV latestV H. unfold release.Compare.
  destruct (semver.IsValid curV) eqn:V1; simpl.
  - destruct H as [H|H]; [discriminate|]. rewrite H. simpl.
    eexists. split; [reflexivity|]. right. repeat split.
  - eexists. split; [reflexivity|]. left. repeat split.
Qed.

Lemma Compare_invalid_input_witness :
  exists e,
    snd (release.Compare "not-a-version" "v1.0.0") = Some e
    /\ e = errorString "installed version is not a valid semver: not-a-version".
Proof.
  destruct (proj1 Compare_invalid_input "not-a-version" "v1.0.0" (or_introl eq_refl))
    as (e & E & [(_ & -> & _) | (F & _)]).
  - exists (errorString "installed version is not a valid semver: not-a-version").
    split; reflexivity.
  - discriminate F.
Defined.

(** C10. Whenever [Compare] returns an error the ordering returned with it
    is 0, and the installed version is checked first: if it is invalid the
    error is about it whatever the latest version is; the error is about
    the latest version only when the installed one is valid. *)
Theorem Compare_error_order curV latestV e :
  snd (release.Compare curV latestV) = Some e ->
  fst (release.Compare curV latestV) = 0%Z
  /\ (semver.IsValid curV = false ->
      e = errorString ("installed version is not a valid semver: " ++ curV))
  /\ (semver.IsValid curV = true ->
      semver.IsValid latestV = false
      /\ e = errorString ("latest version is not a valid semver: " ++ latestV)).
Proof.
  unfold release.Compare.
  destruct (semver.IsValid curV); simpl.
  - destruct (semver.IsValid latestV); simpl; intros E; [discriminate|].
    injection E as <-.
    split; [reflexivity|]. split; [discriminate|]. intros _. split; reflexivity.
  - intros E. injection E as <-.
    split; [reflexivity|]. split; [reflexivity|]. discriminate.
Qed.

Lemma Compare_error_order_witness :
  fst (release.Compare "1.2" "latest") = 0%Z
  /\ (semver.IsValid "1.2" = false ->
      errorString "installed version is not a valid semver: 1.2"
      = errorString ("installed version is not a valid semver: " ++ "1.2"))
  /\ (semver.IsValid "1.2" = true ->
      semver.IsValid "latest" = false
      /\ errorString "installed version is not a valid semver: 1.2"
         = errorString ("latest version is not a valid semver: " ++ "latest")).
Proof.
  exact (Compare_error_order "1.2" "latest"
           (errorString "installed version is not a valid semver: 1.2") eq_refl).
Defined.

(** C1. For two valid version strings, each is the written form of a
    version and [Compare] returns, without error, -1, 0 or +1 as the
    precedence of the two versions is: major, then minor, then patch as
    numbers, then the prerelease. So a version with a prerelease comes
    strictly before the same version without one, and versions that differ
    from the two only in build metadata compare the same. *)
Theorem Compare_precedence (curV latestV : string) :
  semver.IsValid curV = true -> semver.IsValid latestV = true ->
  (exists a b, semver_spec.written curV a /\ semver_spec.written latestV b)
  /\ (forall a b,
        semver_spec.written curV a -> semver_spec.written latestV b ->
        release.Compare curV latestV
        = (semver_spec.sign (semver_spec.precedence a b), None)
        /\ (fst (release.Compare curV latestV) = (-1)%Z
            \/ fst (release.Compare curV latestV) = 0%Z
            \/ fst (release.Compare curV latestV) = 1%Z)
        /\ (semver_spec.v_major a = semver_spec.v_major b ->
            semver_spec.v_minor a = semver_spec.v_minor b ->
            semver_spec.v_patch a = semver_spec.v_patch b ->
            semver_spec.v_prerelease a <> [] ->
            semver_spec.v_prerelease b = [] ->
            release.Compare curV latestV = ((-1)%Z, None))
        /\ (forall curV' latestV' a' b',
              semver_spec.written curV' a' -> semver_spec.written latestV' b' ->
              semver_spec.same_but_build a a' -> semver_spec.same_but_build b b' ->
              release.Compare curV' latestV' = release.Compare curV latestV)).
Proof.
  intros Vc Vl. split.
  - apply IsValid_written in Vc as [a Wa]. apply IsValid_written in Vl as [b Wb].
    now exists a, b.
  - intros a b Wa Wb. pose proof (release_Compare_sign _ _ _ _ Wa Wb) as E.
    rewrite E. split; [reflexivity|]. split; [|split].
    + simpl. destruct (semver_spec.precedence a b); auto.
    + intros E1 E2 E3 N P.
      now rewrite (precedence_prerelease_first a b E1 E2 E3 N P).
    + intros curV' latestV' a' b' Wa' Wb' Sa Sb.
      rewrite (release_Compare_sign _ _ _ _ Wa' Wb').
      now rewrite (precedence_same_but_build a a' b b' Sa Sb).
Qed.

Lemma written_rc :
  semver_spec.written "v1.2.3-rc.1+linux"
    (semver_spec.mkVersion 1 2 3
       [semver_spec.Alphanumeric "rc"; semver_spec.Numeric 1] ["linux"]).
Proof.
  apply (semver_spec.written_patch "1" "2" "3" ["rc"; "1"] ["linux"]);
    try reflexivity; repeat constructor.
Defined.

Lemma written_release :
  semver_spec.written "v1.2.3" (semver_spec.mkVersion 1 2 3 [] []).
Proof.
  apply (semver_spec.written_patch "1" "2" "3" [] []);
    try reflexivity; constructor.
Defined.

Lemma Compare_precedence_witness :
  release.Compare "v1.2.3-rc.1+linux" "v1.2.3" = ((-1)%Z, None).
Proof.
  destruct (Compare_precedence "v1.2.3-rc.1+linux" "v1.2.3" eq_refl eq_refl) as [_ H].
  destruct (H _ _ written_rc written_release) as (_ & _ & P & _).
  apply P; try reflexivity. discriminate.
Defined.

(** C2, as amended. [Compare] accepts exactly the strings written
    [vMAJOR], [vMAJOR.MINOR] or [vMAJOR.MINOR.PATCH[-PRERELEASE][+BUILD]],
    with numbers without leading zeros and dot-separated non-empty
    identifiers of [0-9A-Za-z-] (numeric prerelease identifiers without
    leading zeros). The leading [v] is required: a string that does not
    start with it is never valid. Minor and patch may be left out. *)
Theorem Compare_accepts :
  (forall curV latestV,
      snd (release.Compare curV latestV) = None
      <-> (exists a, semver_spec.written curV a)
          /\ (exists b, semver_spec.written latestV b))
  /\ (forall s, semver.starts_with "v" s = false -> semver.IsValid s = false)
  /\ (forall maj min,
        semver_spec.numeric maj = true -> semver_spec.numeric min = true ->
        semver.IsValid ("v" ++ maj) = true
        /\ semver.IsValid ("v" ++ maj ++ "." ++ min) = true).
Proof.
  split; [|split].
  - intros curV latestV. rewrite <- !IsValid_written. unfold release.Compare.
    destruct (semver.IsValid curV), (semver.IsValid latestV); simpl;
      split; try discriminate; try tauto; intros [? ?]; discriminate.
  - intros [|c s] H; [reflexivity|]. unfold semver.IsValid, semver.parse.
    simpl in H. now rewrite H.
  - intros maj min N1 N2. split; apply IsValid_written; eexists.
    + now apply semver_spec.written_major.
    + now apply semver_spec.written_minor.
Qed.

(** C2 as stated fails: the same version validates with its [v] and not
    without it, and versions without patch, or without minor and patch,
    validate. *)
Lemma validation_wants_v_allows_short :
  semver.IsValid "v1.2.3" = true
  /\ semver.IsValid "1.2.3" = false
  /\ semver.IsValid "v1.2" = true
  /\ semver.IsValid "v1" = true
  /\ release.Compare "v1" "v1.2" = ((-1)%Z, None)
  /\ snd (release.Compare "1.2.3" "1.2.3") <> None.
Proof. repeat split; try (vm_compute; reflexivity). vm_compute. discriminate. Qed.

Lemma Compare_accepts_witness :
  semver.IsValid ("v" ++ "1") = true /\ semver.IsValid ("v" ++ "1" ++ "." ++ "2") = true.
Proof.
  destruct Compare_accepts as (_ & _ & H).
  exact (H "1" "2" eq_refl eq_refl).
Defined.

(** * Further properties of [GitHubLatest] *)

Section Outcome.

Import release.

Variables (env : http.Env) (owner repo : string).

(** X1. [GitHubLatest] returns either a non-empty tag and no error, or the
    empty tag and an error: never a tag together with an error, never an
    empty tag without one. *)
Theorem GitHubLatest_tag_or_error :
  (snd (fst (GitHubLatest env owner repo)) = None
   /\ fst (fst (GitHubLatest env owner repo)) <> "")
  \/ (exists e, snd (fst (GitHubLatest env owner repo)) = Some e
                /\ fst (fst (GitHubLatest env owner repo)) = "").
Proof.
  unfold GitHubLatest.
  destruct (http.NewRequestWithContext _ _ _ _) as [req|err]; [|right; now eexists].
  destruct (http.Do env req) as [resp|err]; [|right; now eexists].
  destruct (http.StatusCode resp =? http.StatusNotFound)%Z; [right; now eexists|].
  destruct (json.Decode (http.Body resp) "") as [t [e|]]; [right; now eexists|].
  destruct (String.eqb_spec t "") as [->|N]; [right; now eexists|].
  left. now split.
Qed.

(** X2. On every path the context is cancelled, once and last. The body is
    closed exactly when a response was received, once and just before the
    cancel; without a response the body is neither decoded nor closed. *)
Theorem GitHubLatest_cleanup :
  exists before,
    snd (GitHubLatest env owner repo) = (before ++ [EvCancel])%list
    /\ ~ In EvCancel before
    /\ ((~ In EvBodyClose before /\ ~ In EvDecode before
         /\ ~ (http.url_Parse env (api_url owner repo) = None
               /\ exists resp, http.RoundTrip env (latest_request owner repo) = inl resp))
        \/ (exists before',
              before = (before' ++ [EvBodyClose])%list
              /\ ~ In EvBodyClose before'
              /\ http.url_Parse env (api_url owner repo) = None
              /\ exists resp, http.RoundTrip env (latest_request owner repo) = inl resp)).
Proof.
  unfold GitHubLatest, http.NewRequestWithContext, http.Do.
  change (5 * http.Second)%Z with 5000000000%Z. unfold http.MethodGet.
  fold (latest_request owner repo).
  destruct (http.url_Parse env (api_url owner repo)) as [err|].
  { exists []. split; [reflexivity|]. split; [intros []|]. left.
    split; [intros []|]. split; [intros []|]. intros [E _]. discriminate. }
  destruct (http.RoundTrip env (latest_request owner repo)) as [resp|err].
  2:{ exists [EvDo (latest_request owner repo)]. split; [reflexivity|].
      split; [intros [E|[]]; discriminate|]. left.
      split; [intros [E|[]]; discriminate|].
      split; [intros [E|[]]; discriminate|].
      intros [_ [r E]]. discriminate. }
  destruct (http.StatusCode resp =? http.StatusNotFound)%Z.
  { exists [EvDo (latest_request owner repo); EvBodyClose]. split; [reflexivity|].
    split; [intros [E|[E|[]]]; discriminate|]. right.
    exists [EvDo (latest_request owner repo)].
    split; [reflexivity|]. split; [intros [E|[]]; discriminate|].
    split; [reflexivity|]. now exists resp. }
  assert (T : exists before,
             [EvDo (latest_request owner repo); EvDecode; EvBodyClose; EvCancel]
             = (before ++ [EvCancel])%list
             /\ ~ In EvCancel before
             /\ exists before',
                  before = (before' ++ [EvBodyClose])%list
                  /\ ~ In EvBodyClose before'
                  /\ @None error = None
                  /\ exists r, @inl http.Response error resp = inl r).
  { exists [EvDo (latest_request owner repo); EvDecode; EvBodyClose].
    split; [reflexivity|]. split; [intros [E|[E|[E|[]]]]; discriminate|].
    exists [EvDo (latest_request owner repo); EvDecode].
    split; [reflexivity|]. split; [intros [E|[E|[]]]; discriminate|].
    split; [reflexivity|]. now exists resp. }
  destruct T as (before & E & N & T).
  exists before.
  destruct (json.Decode (http.Body resp) "") as [t [e|]];
    [|destruct (t =? "")%string]; simpl; (split; [exact E|]); (split; [exact N|]);
    right; exact T.
Qed.



End Outcome.


Section Body.

Import release.

Lemma object_field_members (members : list (string * json.value)) :
  forall st, json.object members st = json.object (field_members members) st.
Proof.
  induction members as [|[k j] ms IH]; intros st; [reflexivity|].
  unfold field_members. cbn [filter fst json.object].
  destruct (json.matchesField k) eqn:M; cbn [json.object]; rewrite ?M; apply IH.
Qed.

(** X5. Members of the response object whose key is not [tag_name] (up to
    the case of its letters) play no part: two responses with the same
    status, whose bodies are objects with the same members for the field in
    the same order, give the same result. *)
Theorem GitHubLatest_other_members_ignored
    (env env' : http.Env) (owner repo : string) (resp resp' : http.Response)
    (members members' : list (string * json.value)) :
  http.url_Parse env (api_url owner repo) = None ->
  http.url_Parse env' (api_url owner repo) = None ->
  http.RoundTrip env (latest_request owner repo) = inl resp ->
  http.RoundTrip env' (latest_request owner repo) = inl resp' ->
  http.StatusCode resp = http.StatusCode resp' ->
  http.Body resp = json.Value (json.JObject members) ->
  http.Body resp' = json.Value (json.JObject members') ->
  field_members members = field_members members' ->
  GitHubLatest env owner repo = GitHubLatest env' owner repo.
Proof.
  intros P P' R R' S B B' F.
  unfold GitHubLatest, http.NewRequestWithContext, http.Do.
  change (5 * http.Second)%Z with 5000000000%Z. unfold http.MethodGet.
  fold (latest_request owner repo).
  rewrite P, P', R, R', S, B, B'. simpl.
  now rewrite (object_field_members members), (object_field_members members'), F.
Qed.

(** X6. Owner and repository enter the request only through the URL, into
    which they are pasted as they are: a slash inside one of them is a path
    separator like the one between them. *)
Theorem GitHubLatest_names_not_escaped (env : http.Env) (owner mid repo : string) :
  GitHubLatest env (owner ++ "/" ++ mid) repo = GitHubLatest env owner (mid ++ "/" ++ repo).
Proof.
  assert (E : api_url (owner ++ "/" ++ mid) repo = api_url owner (mid ++ "/" ++ repo)).
  { unfold api_url. f_equal. now rewrite !app_assoc. }
  unfold GitHubLatest. now rewrite E.
Qed.

End Body.

Lemma GitHubLatest_other_members_ignored_witness :
  release.GitHubLatest
    (answering (http.mkResponse 200 (json.Value (json.JObject
       [("id", json.JNumber "7"); ("tag_name", json.JString "v1.2.3");
        ("draft", json.JBool false)]))))
    "marco-m" "taschino"
  = release.GitHubLatest (answering (http.mkResponse 200 (tag_body "v1.2.3")))
      "marco-m" "taschino".
Proof.
  apply (GitHubLatest_other_members_ignored _ _ "marco-m" "taschino"
           (http.mkResponse 200 (json.Value (json.JObject
              [("id", json.JNumber "7"); ("tag_name", json.JString "v1.2.3");
               ("draft", json.JBool false)])))
           (http.mkResponse 200 (tag_body "v1.2.3"))
           [("id", json.JNumber "7"); ("tag_name", json.JString "v1.2.3");
            ("draft", json.JBool false)]
           [("tag_name", json.JString "v1.2.3")]); reflexivity.
Defined.

(** * Further properties of [Compare]: an order on valid versions *)

Section Order.

Import semver_spec.

Lemma sign_opp (c : comparison) : sign (CompOpp c) = (- sign c)%Z.
Proof. now destruct c. Qed.

Lemma sign_inj (c d : comparison) : sign c = sign d -> c = d.
Proof. now destruct c, d. Qed.

Lemma Compare_valid (v w : string) :
  snd (release.Compare v w) = None ->
  semver.IsValid v = true /\ semver.IsValid w = true.
Proof.
  unfold release.Compare.
  destruct (semver.IsValid v); [|discriminate].
  destruct (semver.IsValid w); [now split | discriminate].
Qed.

Lemma ident_compare_antisym (a b : ident) :
  ident_compare b a = CompOpp (ident_compare a b).
Proof.
  destruct a, b; simpl; try reflexivity;
    [apply N.compare_antisym | apply String.compare_antisym].
Qed.

Lemma idents_compare_antisym (xs : list ident) : forall ys,
  idents_compare ys xs = CompOpp (idents_compare xs ys).
Proof.
  induction xs as [|x xs IH]; intros [|y ys]; simpl; try reflexivity.
  rewrite (ident_compare_antisym x y), IH.
  now destruct (ident_compare x y).
Qed.

Lemma precedence_antisym (a b : version) :
  precedence b a = CompOpp (precedence a b).
Proof.
  unfold precedence.
  rewrite (N.compare_antisym (v_major a)), (N.compare_antisym (v_minor a)),
    (N.compare_antisym (v_patch a)).
  destruct (v_major a ?= v_major b)%N; try reflexivity.
  destruct (v_minor a ?= v_minor b)%N; try reflexivity.
  destruct (v_patch a ?= v_patch b)%N; try reflexivity.
  simpl. unfold prerelease_compare.
  destruct (v_prerelease a) as [|x xs], (v_prerelease b) as [|y ys]; try reflexivity.
  apply idents_compare_antisym.
Qed.

(** X7. Swapping the arguments of [Compare] negates the ordering it
    returns; for an invalid argument both orderings are 0. *)
Theorem Compare_antisymmetric (curV latestV : string) :
  fst (release.Compare latestV curV) = (- fst (release.Compare curV latestV))%Z.
Proof.
  destruct (semver.IsValid curV) eqn:Vc, (semver.IsValid latestV) eqn:Vl.
  - apply IsValid_written in Vc as [a Wa]. apply IsValid_written in Vl as [b Wb].
    rewrite (release_Compare_sign _ _ _ _ Wa Wb), (release_Compare_sign _ _ _ _ Wb Wa).
    simpl. now rewrite precedence_antisym, sign_opp.
  - unfold release.Compare. now rewrite Vc, Vl.
  - unfold release.Compare. now rewrite Vc, Vl.
  - unfold release.Compare. now rewrite Vc, Vl.
Qed.

Lemma ident_compare_eq (a b : ident) : ident_compare a b = Eq -> a = b.
Proof.
  destruct a, b; simpl; try discriminate.
  - now intros ->%N.compare_eq.
  - now intros ->%String.compare_eq_iff.
Qed.

Lemma idents_compare_eq (xs : list ident) : forall ys,
  idents_compare xs ys = Eq -> xs = ys.
Proof.
  induction xs as [|x xs IH]; intros [|y ys]; simpl; try discriminate; [reflexivity|].
  destruct (ident_compare x y) eqn:C; try discriminate.
  apply ident_compare_eq in C. intros E%IH. now subst.
Qed.

Lemma prerelease_compare_refl (xs : list ident) : prerelease_compare xs xs = Eq.
Proof. destruct xs; [reflexivity|]. apply idents_compare_refl. Qed.

Lemma prerelease_compare_eq (xs ys : list ident) :
  prerelease_compare xs ys = Eq -> xs = ys.
Proof.
  destruct xs, ys; simpl; try discriminate; [reflexivity|].
  apply (idents_compare_eq (_ :: _) (_ :: _)).
Qed.

Lemma precedence_eq (a b : version) : precedence a b = Eq <-> same_but_build a b.
Proof.
  unfold precedence, same_but_build. split.
  - destruct (v_major a ?= v_major b)%N eqn:C1; try discriminate.
    destruct (v_minor a ?= v_minor b)%N eqn:C2; try discriminate.
    destruct (v_patch a ?= v_patch b)%N eqn:C3; try discriminate.
    intros P. apply N.compare_eq in C1, C2, C3.
    apply prerelease_compare_eq in P. now repeat split.
  - intros (-> & -> & -> & ->).
    rewrite !N.compare_refl. apply prerelease_compare_refl.
Qed.

(** X8. Two valid versions compare equal exactly when they have the same
    major, minor and patch numbers and the same prerelease: a difference in
    build metadata alone, or between a short form and its full form, does
    not tell them apart, and nothing else is overlooked. *)
Theorem Compare_equal_iff (curV latestV : string) (a b : version) :
  written curV a -> written latestV b ->
  release.Compare curV latestV = (0%Z, None) <-> same_but_build a b.
Proof.
  intros Wa Wb. rewrite (release_Compare_sign _ _ _ _ Wa Wb), <- precedence_eq.
  split.
  - intros E. injection E as E. now apply (sign_inj _ Eq).
  - now intros ->.
Qed.

(** X9. A valid version compares equal to itself. *)
Theorem Compare_reflexive (v : string) :
  semver.IsValid v = true -> release.Compare v v = (0%Z, None).
Proof.
  intros [a W]%IsValid_written.
  rewrite (release_Compare_sign _ _ _ _ W W).
  now rewrite (proj2 (precedence_eq a a)).
Qed.

Lemma lex_lt_trans (c12 c23 c13 d12 d23 d13 : comparison) :
  (c12 = Eq -> c13 = c23) ->
  (c23 = Eq -> c13 = c12) ->
  (c12 = Lt -> c23 = Lt -> c13 = Lt) ->
  (d12 = Lt -> d23 = Lt -> d13 = Lt) ->
  lex c12 d12 = Lt -> lex c23 d23 = Lt -> lex c13 d13 = Lt.
Proof.
  intros E1 E2 T D.
  destruct c12, c23; simpl; try discriminate; intros L1 L2.
  - rewrite (E1 eq_refl). simpl. now apply D.
  - now rewrite (E1 eq_refl).
  - now rewrite (E2 eq_refl).
  - now rewrite (T eq_refl eq_refl).
Qed.

Lemma N_compare_lex (x y z : N) (d12 d23 d13 : comparison) :
  (d12 = Lt -> d23 = Lt -> d13 = Lt) ->
  lex (x ?= y)%N d12 = Lt -> lex (y ?= z)%N d23 = Lt -> lex (x ?= z)%N d13 = Lt.
Proof.
  apply lex_lt_trans.
  - now intros ->%N.compare_eq.
  - now intros ->%N.compare_eq.
  - rewrite !N.compare_lt_iff. lia.
Qed.

Lemma string_compare_trans (x : string) : forall y z,
  String.compare x y = Lt -> String.compare y z = Lt -> String.compare x z = Lt.
Proof.
  induction x as [|a x IH]; intros [|b y] [|c z]; simpl; try discriminate;
    try reflexivity.
  apply (lex_lt_trans (Ascii.compare a b) (Ascii.compare b c) (Ascii.compare a c)).
  - now intros ->%Ascii.compare_eq_iff.
  - now intros ->%Ascii.compare_eq_iff.
  - unfold Ascii.compare. rewrite !N.compare_lt_iff. lia.
  - apply IH.
Qed.

Lemma ident_compare_trans (a b c : ident) :
  ident_compare a b = Lt -> ident_compare b c = Lt -> ident_compare a c = Lt.
Proof.
  destruct a, b, c; simpl; try discriminate; try reflexivity.
  - rewrite !N.compare_lt_iff. lia.
  - apply string_compare_trans.
Qed.

Lemma idents_compare_trans (xs : list ident) : forall ys zs,
  idents_compare xs ys = Lt -> idents_compare ys zs = Lt -> idents_compare xs zs = Lt.
Proof.
  induction xs as [|x xs IH]; intros [|y ys] [|z zs]; simpl; try discriminate;
    try reflexivity.
  apply (lex_lt_trans (ident_compare x y) (ident_compare y z) (ident_compare x z)).
  - now intros ->%ident_compare_eq.
  - now intros ->%ident_compare_eq.
  - apply ident_compare_trans.
  - apply IH.
Qed.

Lemma prerelease_compare_trans (xs ys zs : list ident) :
  prerelease_compare xs ys = Lt -> prerelease_compare ys zs = Lt ->
  prerelease_compare xs zs = Lt.
Proof.
  destruct xs as [|x xs], ys as [|y ys], zs as [|z zs]; simpl; try discriminate;
    try reflexivity.
  apply (idents_compare_trans (x :: xs) (y :: ys) (z :: zs)).
Qed.

Lemma precedence_trans (a b c : version) :
  precedence a b = Lt -> precedence b c = Lt -> precedence a c = Lt.
Proof.
  unfold precedence.
  apply (N_compare_lex (v_major a) (v_major b) (v_major c)).
  apply (N_compare_lex (v_minor a) (v_minor b) (v_minor c)).
  apply (N_compare_lex (v_patch a) (v_patch b) (v_patch c)).
  apply prerelease_compare_trans.
Qed.

(** X10. The ordering of [Compare] is transitive: if it puts [u] before [v]
    and [v] before [w], it puts [u] before [w]. *)
Theorem Compare_transitive (u v w : string) :
  release.Compare u v = ((-1)%Z, None) ->
  release.Compare v w = ((-1)%Z, None) ->
  release.Compare u w = ((-1)%Z, None).
Proof.
  intros E1 E2.
  destruct (Compare_valid u v) as [[a Wa]%IsValid_written [b Wb]%IsValid_written];
    [now rewrite E1|].
  destruct (Compare_valid v w) as [_ [c Wc]%IsValid_written]; [now rewrite E2|].
  rewrite (release_Compare_sign _ _ _ _ Wa Wb) in E1.
  rewrite (release_Compare_sign _ _ _ _ Wb Wc) in E2.
  rewrite (release_Compare_sign _ _ _ _ Wa Wc).
  injection E1 as E1. injection E2 as E2.
  apply (sign_inj _ Lt) in E1, E2.
  now rewrite (precedence_trans a b c E1 E2).
Qed.

End Order.

Section Forms.

Import semver_spec.

(** X11. A version written without its patch, or without minor and patch,
    compares equal to the same version with zeros written in their place. *)
Theorem Compare_short_forms (maj min : string) :
  numeric maj = true -> numeric min = true ->
  release.Compare ("v" ++ maj) ("v" ++ maj ++ ".0") = (0%Z, None)
  /\ release.Compare ("v" ++ maj) ("v" ++ maj ++ ".0.0") = (0%Z, None)
  /\ release.Compare ("v" ++ maj ++ "." ++ min) ("v" ++ maj ++ "." ++ min ++ ".0")
     = (0%Z, None).
Proof.
  intros N1 N2.
  pose proof (written_major maj N1) as W1.
  pose proof (written_minor maj "0" N1 eq_refl) as W2.
  pose proof (written_patch maj "0" "0" [] [] N1 eq_refl eq_refl
                (Forall_nil _) (Forall_nil _)) as W3.
  pose proof (written_minor maj min N1 N2) as W4.
  pose proof (written_patch maj min "0" [] [] N1 N2 eq_refl
                (Forall_nil _) (Forall_nil _)) as W5.
  change ("v" ++ maj ++ ".0") with ("v" ++ maj ++ "." ++ "0").
  change ("v" ++ maj ++ ".0.0")
    with ("v" ++ maj ++ "." ++ "0" ++ "." ++ "0" ++ suffix "-" [] ++ suffix "+" []).
  change ("v" ++ maj ++ "." ++ min ++ ".0")
    with ("v" ++ maj ++ "." ++ min ++ "." ++ "0" ++ suffix "-" [] ++ suffix "+" []).
  split; [|split].
  - rewrite (release_Compare_sign _ _ _ _ W1 W2). unfold precedence. simpl.
    now rewrite N.compare_refl.
  - rewrite (release_Compare_sign _ _ _ _ W1 W3). unfold precedence. simpl.
    now rewrite N.compare_refl.
  - rewrite (release_Compare_sign _ _ _ _ W4 W5). unfold precedence. simpl.
    now rewrite !N.compare_refl.
Qed.

Lemma idents_compare_longer (l r : list ident) (x : ident) :
  idents_compare l (l ++ x :: r) = Lt.
Proof.
  induction l as [|y l IH]; simpl; [reflexivity|].
  now rewrite ident_compare_refl.
Qed.

(** X12. Among versions with the same numbers, a prerelease with one more
    identifier at its end comes after the shorter one, whatever the build
    metadata of the two. *)
Theorem Compare_prerelease_extended
    (maj min pat id : string) (pre bld bld' : list string) :
  numeric maj = true -> numeric min = true -> numeric pat = true ->
  pre <> [] ->
  Forall (fun x => pre_ident x = true) pre -> pre_ident id = true ->
  Forall (fun x => build_ident x = true) bld ->
  Forall (fun x => build_ident x = true) bld' ->
  release.Compare
    ("v" ++ maj ++ "." ++ min ++ "." ++ pat ++ suffix "-" pre ++ suffix "+" bld)
    ("v" ++ maj ++ "." ++ min ++ "." ++ pat ++ suffix "-" (pre ++ [id]) ++ suffix "+" bld')
  = ((-1)%Z, None).
Proof.
  intros N1 N2 N3 NE F I B B'.
  assert (F' : Forall (fun x => pre_ident x = true) (pre ++ [id]))
    by (apply Forall_app; split; [exact F | now constructor]).
  rewrite (release_Compare_sign _ _ _ _
             (written_patch maj min pat pre bld N1 N2 N3 F B)
             (written_patch maj min pat (pre ++ [id]) bld' N1 N2 N3 F' B')).
  unfold precedence. simpl. rewrite !N.compare_refl, map_app.
  destruct pre as [|x pre]; [now elim NE|]. simpl.
  now rewrite ident_compare_refl, idents_compare_longer.
Qed.

Lemma all_impl (p q : ascii -> bool) (s : string) :
  (forall c, p c = true -> q c = true) -> all p s = true -> all q s = true.
Proof.
  intros H. induction s as [|c s IH]; simpl; [reflexivity|].
  intros [P A]%andb_prop. now rewrite (H c P), IH.
Qed.

Lemma digit_version_byte (c : ascii) : semver.isDigit c = true -> version_byte c = true.
Proof.
  unfold version_byte, semver.isIdentChar, semver.isDigit. intros ->.
  now rewrite !orb_true_r.
Qed.

Lemma ident_version_byte (c : ascii) : semver.isIdentChar c = true -> version_byte c = true.
Proof. unfold version_byte. now intros ->. Qed.

Lemma numeric_version_bytes (s : string) : numeric s = true -> all version_byte s = true.
Proof.
  intros N%numeric_digits. now apply (all_impl _ _ _ digit_version_byte).
Qed.

Lemma suffix_version_bytes (ids : list string) : forall mark,
  version_byte mark = true ->
  Forall (fun x => all semver.isIdentChar x = true) ids ->
  all version_byte (suffix mark ids) = true.
Proof.
  induction ids as [|id ids IH]; intros mark M F; [reflexivity|].
  inversion F as [|? ? A F']; subst. cbn [suffix all].
  rewrite M, all_app, (all_impl _ _ _ ident_version_byte A), IH; auto.
Qed.

(** X13. [Compare] accepts no version with a byte outside [0-9A-Za-z-],
    the dot and the plus: a space, a newline or any other such byte in
    either argument makes it return an error. *)
Theorem Compare_rejects_other_bytes (curV latestV : string) :
  all version_byte curV = false \/ all version_byte latestV = false ->
  exists e, release.Compare curV latestV = (0%Z, Some e).
Proof.
  assert (V : forall v, semver.IsValid v = true -> all version_byte v = true).
  { intros v [a W]%IsValid_written.
    assert (P : forall l, Forall (fun x => pre_ident x = true) l ->
                          Forall (fun x => all semver.isIdentChar x = true) l).
    { intros l. apply Forall_impl. intros x. unfold pre_ident, build_ident.
      now intros [[_ A]%andb_prop _]%andb_prop. }
    assert (B : forall l, Forall (fun x => build_ident x = true) l ->
                          Forall (fun x => all semver.isIdentChar x = true) l).
    { intros l. apply Forall_impl. intros x. unfold build_ident.
      now intros [_ A]%andb_prop. }
    destruct W; repeat (progress cbn [append all] || rewrite all_app);
      rewrite ?numeric_version_bytes by assumption;
      rewrite ?suffix_version_bytes by (first [reflexivity | auto]);
      reflexivity. }
  intros H. unfold release.Compare.
  destruct (semver.IsValid curV) eqn:Vc; simpl; [|now eexists].
  destruct (semver.IsValid latestV) eqn:Vl; simpl; [|now eexists].
  apply V in Vc, Vl. destruct H as [H|H]; congruence.
Qed.

End Forms.

Lemma written_build :
  semver_spec.written "v1.2.3+linux" (semver_spec.mkVersion 1 2 3 [] ["linux"]).
Proof.
  apply (semver_spec.written_patch "1" "2" "3" [] ["linux"]);
    try reflexivity; repeat constructor.
Defined.

Lemma Compare_equal_iff_witness :
  release.Compare "v1.2.3+linux" "v1.2.3" = (0%Z, None)
  <-> semver_spec.same_but_build
        (semver_spec.mkVersion 1 2 3 [] ["linux"]) (semver_spec.mkVersion 1 2 3 [] []).
Proof.
  exact (Compare_equal_iff "v1.2.3+linux" "v1.2.3" _ _ written_build written_release).
Defined.

Lemma Compare_reflexive_witness :
  release.Compare "v1.2.3-rc.1+linux" "v1.2.3-rc.1+linux" = (0%Z, None).
Proof. exact (Compare_reflexive "v1.2.3-rc.1+linux" eq_refl). Defined.

Lemma Compare_transitive_witness :
  release.Compare "v1.9.0-rc.1" "v1.10.0" = ((-1)%Z, None).
Proof.
  exact (Compare_transitive "v1.9.0-rc.1" "v1.9.0" "v1.10.0" eq_refl eq_refl).
Defined.

Lemma Compare_short_forms_witness :
  release.Compare ("v" ++ "1") ("v" ++ "1" ++ ".0") = (0%Z, None)
  /\ release.Compare ("v" ++ "1") ("v" ++ "1" ++ ".0.0") = (0%Z, None)
  /\ release.Compare ("v" ++ "1" ++ "." ++ "2") ("v" ++ "1" ++ "." ++ "2" ++ ".0")
     = (0%Z, None).
Proof. exact (Compare_short_forms "1" "2" eq_refl eq_refl). Defined.

Lemma Compare_prerelease_extended_witness :
  release.Compare "v1.0.0-alpha+a" "v1.0.0-alpha.1" = ((-1)%Z, None).
Proof.
  apply (Compare_prerelease_extended "1" "0" "0" "1" ["alpha"] ["a"] []);
    try reflexivity; try discriminate; repeat constructor.
Defined.

Lemma Compare_rejects_other_bytes_witness :
  exists e, release.Compare "v1.2.3 " "v1.2.3" = (0%Z, Some e).
Proof.
  exact (Compare_rejects_other_bytes "v1.2.3 " "v1.2.3" (or_introl eq_refl)).
Defined.
